(** * Caption segmentation and delta emission (backend/bot.py)

    A shallow embedding of the caption core of [bot.py]: the text
    normaliser and merge judge of [CaptionSegmenter], its per-speaker draft
    state machine ([update]) and idle flush ([flush_ready]), the dedup gate
    [_emit_final] and the periodic delta emitter ([_prefix_len],
    [_emit_periodic]).

    Modelling conventions.
    - A Python [str] is a list of characters.  Characters are the code
      points below 256, with the character classes Python gives them
      ([str.isspace], [str.isalnum], [str.lower]).
    - A Python [float] holding seconds is an exact rational; the rounding
      of float arithmetic is not modelled.
    - [time.time()] is an explicit argument [now] of every operation that
      reads the clock.
    - A Python [dict] is an association list in insertion order with
      unique keys; [update], [flush_ready] and the emitters pass the
      mutable state explicitly, and an object mutated in place inside a
      dict is written back under its key.
    - [difflib.SequenceMatcher.ratio] belongs to the Python library: the
      segmenter takes it as a parameter, and [Difflib.ratio] is an
      executable model of it for the concrete scenarios.
    - The asyncio lock and the network and file writes of [_emit_final]
      are left out: an emission is the payload handed to the sink. *)

From Stdlib Require Import Ascii String.
From Stdlib Require Import List Bool Arith NArith ZArith QArith Lia Lqa.
From Stdlib Require Import Permutation.
Import ListNotations.

Open Scope bool_scope.
Open Scope nat_scope.

(** ** Python strings *)

Definition str := list ascii.

(** String literals of the source, as lists of characters. *)
Definition lit (s : string) : str := list_ascii_of_string s.
Arguments lit s%_string.

Module Py.

Definition code (c : ascii) : N := N_of_ascii c.

Definition between (lo hi n : N) : bool := ((lo <=? n) && (n <=? hi))%N.

(** [ch.isspace()] *)
Definition isspace (c : ascii) : bool :=
  let n := code c in
  between 9 13 n || between 28 32 n || (n =? 133)%N || (n =? 160)%N.

(** [ch.isalnum()] *)
Definition isalnum (c : ascii) : bool :=
  let n := code c in
  between 48 57 n || between 65 90 n || between 97 122 n
  || (n =? 170)%N || between 178 179 n || (n =? 181)%N
  || between 185 186 n || between 188 190 n
  || between 192 214 n || between 216 246 n || between 248 255 n.

(** [ch.lower()] *)
Definition lower_char (c : ascii) : ascii :=
  let n := code c in
  if between 65 90 n || between 192 214 n || between 216 222 n
  then ascii_of_N (n + 32) else c.

(** [s.lower()] *)
Definition lower (s : str) : str := map lower_char s.

(** Truthiness of a string: [not s] is [is_empty s]. *)
Definition is_empty (s : str) : bool :=
  match s with [] => true | _ :: _ => false end.

Definition eqb_char (a b : ascii) : bool := Ascii.eqb a b.

(** [s.startswith(prefix)] *)
Fixpoint startswith (s prefix : str) : bool :=
  match prefix, s with
  | [], _ => true
  | _ :: _, [] => false
  | x :: prefix', y :: s' => eqb_char x y && startswith s' prefix'
  end.

(** [needle in haystack] *)
Fixpoint str_in (needle haystack : str) : bool :=
  startswith haystack needle ||
  match haystack with
  | [] => false
  | _ :: rest => str_in needle rest
  end.

(** [s.lstrip()], [s.rstrip()], [s.strip()] *)
Fixpoint lstrip (s : str) : str :=
  match s with
  | [] => []
  | c :: s' => if isspace c then lstrip s' else s
  end.

Definition rstrip (s : str) : str := rev (lstrip (rev s)).

Definition strip (s : str) : str := rstrip (lstrip s).

(** [s[k:]] for [k >= 0] *)
Definition slice_from (k : nat) (s : str) : str := skipn k s.

(** [s[-n:]] for [n > 0] *)
Definition last_chars (n : nat) (s : str) : str := skipn (length s - n) s.

(** [' '] *)
Definition space : ascii := " "%char.

(** [s.endswith(suffix)] *)
Definition endswith (s suffix : str) : bool :=
  startswith (rev s) (rev suffix).

(** [c in chars] for a character. *)
Definition char_in (c : ascii) (chars : str) : bool :=
  existsb (eqb_char c) chars.

(** [s.lstrip(chars)], [s.rstrip(chars)], [s.strip(chars)] *)
Fixpoint lstrip_chars (chars s : str) : str :=
  match s with
  | [] => []
  | c :: s' => if char_in c chars then lstrip_chars chars s' else s
  end.

Definition rstrip_chars (chars s : str) : str :=
  rev (lstrip_chars chars (rev s)).

Definition strip_chars (chars s : str) : str :=
  rstrip_chars chars (lstrip_chars chars s).

(** [s.split(sep)] for a separator of one character. *)
Fixpoint split (sep : ascii) (s : str) : list str :=
  match s with
  | [] => [[]]
  | c :: s' =>
      if eqb_char c sep then [] :: split sep s'
      else match split sep s' with
           | [] => [[c]]
           | part :: parts => (c :: part) :: parts
           end
  end.

(** [s[:-n]] for [n > 0] *)
Definition drop_last (n : nat) (s : str) : str := firstn (length s - n) s.

End Py.

(** ** [difflib.SequenceMatcher(None, a, b).ratio()]

    The standard library routine the merge judge calls.  The development
    below is parametric in it; this executable model instantiates the
    parameter in the concrete scenarios. *)

Module Difflib.

Definition count (x : ascii) (b : str) : nat :=
  count_occ ascii_dec b x.

(** [__chain_b] with [isjunk=None], [autojunk=True]: in a [b] of at least
    200 elements, an element with more than [n // 100 + 1] occurrences is
    popular and loses its [b2j] entry. *)
Definition popular (b : str) (x : ascii) : bool :=
  (200 <=? length b) && (length b / 100 + 1 <? count x b).

Definition Match : Type := nat * nat * nat.

(** One pass of the inner loop of [find_longest_match] for the element
    [ai] at index [i]: [prev] is [j2len] shifted by one position. *)
Fixpoint row_scan (pop : ascii -> bool) (ai : ascii) (i : nat)
         (b : str) (prev : list nat) (j : nat) (best : Match)
  : list nat * Match :=
  match b with
  | [] => ([], best)
  | bj :: b' =>
      let before := match prev with [] => 0 | k :: _ => k end in
      let k := if Py.eqb_char ai bj && negb (pop bj) then S before else 0 in
      let '(_, _, bestsize) := best in
      let best' :=
        if (0 <? k) && (bestsize <? k) then (S i - k, S j - k, k) else best in
      let '(row, final) := row_scan pop ai i b' (tl prev) (S j) best' in
      (k :: row, final)
  end.

Fixpoint rows (pop : ascii -> bool) (a : str) (i : nat) (b : str)
         (j2len : list nat) (best : Match) : Match :=
  match a with
  | [] => best
  | ai :: a' =>
      let '(row, best') := row_scan pop ai i b (0 :: j2len) 0 best in
      rows pop a' (S i) b row best'
  end.

Fixpoint extend_back (a b : str) (i j k : nat) : Match :=
  match i, j with
  | S i', S j' =>
      match nth_error a i', nth_error b j' with
      | Some x, Some y =>
          if Py.eqb_char x y then extend_back a b i' j' (S k) else (i, j, k)
      | _, _ => (i, j, k)
      end
  | _, _ => (i, j, k)
  end.

Fixpoint extend_forward (fuel : nat) (a b : str) (i j k : nat) : Match :=
  match fuel with
  | 0 => (i, j, k)
  | S fuel' =>
      match nth_error a (i + k), nth_error b (j + k) with
      | Some x, Some y =>
          if Py.eqb_char x y then extend_forward fuel' a b i j (S k)
          else (i, j, k)
      | _, _ => (i, j, k)
      end
  end.

(** [find_longest_match(alo, ahi, blo, bhi)] on the slices
    [a[alo:ahi]] and [b[blo:bhi]]; indices are relative to the slices. *)
Definition find_longest_match (pop : ascii -> bool) (a b : str) : Match :=
  let '(i, j, k) := rows pop a 0 b [] (0, 0, 0) in
  let '(i1, j1, k1) := extend_back a b i j k in
  extend_forward (length a) a b i1 j1 k1.

(** Sum of the sizes of [get_matching_blocks()]. *)
Fixpoint matches (fuel : nat) (pop : ascii -> bool) (a b : str) : nat :=
  match fuel with
  | 0 => 0
  | S fuel' =>
      let '(i, j, k) := find_longest_match pop a b in
      if k =? 0 then 0
      else k + matches fuel' pop (firstn i a) (firstn j b)
             + matches fuel' pop (skipn (i + k) a) (skipn (j + k) b)
  end.

(** [_calculate_ratio(matches, len(a) + len(b))] *)
Definition ratio (a b : str) : option Q :=
  let m := matches (S (length a)) (popular b) a b in
  let len := length a + length b in
  Some (if len =? 0 then 1%Q
        else (Z.of_nat (2 * m) # Pos.of_nat len)%Q).

End Difflib.

(** A match that ends inside the first [n] elements of [a]. *)
Definition within (n : nat) (m : Difflib.Match) : Prop :=
  let '(i, _, k) := m in i + k <= n.

(** ** Python dicts keyed by strings

    Kept in insertion order, the order in which [flush_ready] and the
    emitter tick walk them. *)

Fixpoint str_eqb (a b : str) : bool :=
  match a, b with
  | [], [] => true
  | x :: a', y :: b' => Py.eqb_char x y && str_eqb a' b'
  | _, _ => false
  end.

Module Dict.
Section Dict.
Context {V : Type}.

Definition t := list (str * V).

Definition empty : t := [].

(** [d.get(k)] *)
Fixpoint get (k : str) (d : t) : option V :=
  match d with
  | [] => None
  | (k', v) :: d' => if str_eqb k k' then Some v else get k d'
  end.

(** [k in d] *)
Definition mem (k : str) (d : t) : bool :=
  match get k d with Some _ => true | None => false end.

(** [d.get(k, default)] *)
Definition get_default (k : str) (default : V) (d : t) : V :=
  match get k d with Some v => v | None => default end.

(** [d[k] = v]: an existing key keeps its position, a new key goes last. *)
Fixpoint set (k : str) (v : V) (d : t) : t :=
  match d with
  | [] => [(k, v)]
  | (k', v') :: d' =>
      if str_eqb k k' then (k, v) :: d' else (k', v') :: set k v d'
  end.

(** [d.pop(k, None)] *)
Fixpoint pop (k : str) (d : t) : t :=
  match d with
  | [] => []
  | (k', v') :: d' =>
      if str_eqb k k' then d' else (k', v') :: pop k d'
  end.

(** [list(d.items())] *)
Definition items (d : t) : list (str * V) := d.

(** [len(d)] *)
Definition len (d : t) : nat := length d.

Definition keys (d : t) : list str := map fst d.

(** The invariant of a dict: no key occurs twice. *)
Definition wf (d : t) : Prop := NoDup (keys d).

End Dict.
Arguments t : clear implicits.
End Dict.

(** ** Comparisons of float seconds *)

Definition Qleb (a b : Q) : bool := Qle_bool a b.
Definition Qgeb (a b : Q) : bool := Qle_bool b a.
Definition Qltb (a b : Q) : bool := negb (Qle_bool b a).
Definition Qgtb (a b : Q) : bool := negb (Qle_bool a b).

(** ** The dedup gate and the delta emitter ([_attach_caption_observer]) *)

Definition DEDUP_WINDOW_SECONDS : Q := 2%Q.

(** What reaches the output sink: [(speaker, text, ts)]. *)
Definition Payload : Type := str * str * Q.

(** The sweep of [LAST_SENT] once it holds more than 5000 keys. *)
Definition prune (cutoff : Q) (last_sent : Dict.t Q) : Dict.t Q :=
  fold_left
    (fun d kv => if Qltb (snd kv) cutoff then Dict.pop (fst kv) d else d)
    (Dict.items last_sent) last_sent.

(** [_emit_final(speaker, text, ts)] with [LAST_SENT] passed explicitly;
    [now] is the clock read inside the call.  The result is the new
    [LAST_SENT] and the payload handed to the sink, if any. *)
Definition _emit_final (now : Q) (speaker text : str) (ts : Q)
           (LAST_SENT : Dict.t Q) : Dict.t Q * option Payload :=
  let txt := Py.strip text in
  let spk := Py.strip speaker in
  if Py.is_empty txt then (LAST_SENT, None)
  else
    let dedupe_key := spk ++ lit "|" ++ txt in
    if Dict.mem dedupe_key LAST_SENT
       && Qltb (now - Dict.get_default dedupe_key 0 LAST_SENT)%Q
               DEDUP_WINDOW_SECONDS
    then (LAST_SENT, None)
    else
      let sent := Dict.set dedupe_key now LAST_SENT in
      let sent :=
        if 5000 <? Dict.len sent then prune (now - 120)%Q sent else sent in
      (sent, Some (spk, txt, ts)).

(** The [while] loop of [_prefix_len] on the suffixes [a[i:]] and [b[j:]].
    Every iteration that continues advances [i], so [len(a) - i] iterations
    are enough. *)
Fixpoint prefix_len_loop (fuel : nat) (a b : str) (j : nat) : nat :=
  match fuel with
  | 0 => j
  | S fuel' =>
      match a, b with
      | ca :: _, cb :: _ =>
          let '(a1, ca1) :=
            if Py.isspace ca then (Py.lstrip a, Py.space) else (a, ca) in
          let '(b1, j1, cb1) :=
            if Py.isspace cb
            then (Py.lstrip b, j + (length b - length (Py.lstrip b)), Py.space)
            else (b, j, cb) in
          if Py.eqb_char (Py.lower_char ca1) (Py.lower_char cb1)
          then prefix_len_loop fuel' (tl a1) (tl b1) (S j1)
          else j1
      | _, _ => j
      end
  end.

Definition _prefix_len (a b : str) : nat :=
  prefix_len_loop (length a) a b 0.

Record Emitter := mkEmitter {
  curr_by_speaker : Dict.t str;
  emitted_last_by_speaker : Dict.t str;
  LAST_SENT : Dict.t Q
}.

(** [_on_caption(data)] *)
Definition _on_caption (text speaker : str) (e : Emitter) : Emitter :=
  let curr := Py.strip text in
  let speaker := Py.strip speaker in
  if Py.is_empty curr then e
  else
    let speaker := if Py.is_empty speaker then lit "Unknown" else speaker in
    mkEmitter (Dict.set speaker curr (curr_by_speaker e))
              (emitted_last_by_speaker e) (LAST_SENT e).

(** The delta of one speaker on a tick. *)
Definition tick_delta (prev curr : str) : str :=
  if negb (Py.is_empty prev)
  then Py.strip (Py.slice_from (_prefix_len prev curr) curr)
  else curr.

(** The body of the [for] loop of [_emit_periodic] for one speaker: [now]
    is the tick's clock reading, [clock] the one inside [_emit_final]. *)
Definition emit_periodic_body (now clock : Q) (speaker curr : str)
           (e : Emitter) : Emitter * option Payload :=
  let prev := Dict.get_default speaker [] (emitted_last_by_speaker e) in
  let delta := tick_delta prev curr in
  if negb (Py.is_empty delta) && (2 <=? length delta)
  then
    let '(sent, out) := _emit_final clock speaker delta now (LAST_SENT e) in
    (mkEmitter (curr_by_speaker e)
               (Dict.set speaker curr (emitted_last_by_speaker e)) sent, out)
  else
    (mkEmitter (curr_by_speaker e)
               (Dict.set speaker (if Py.is_empty prev then curr else prev)
                         (emitted_last_by_speaker e))
               (LAST_SENT e), None).

(** One tick of [_emit_periodic]: the loop over
    [list(curr_by_speaker.items())]; [clock spk] is the clock reading
    inside the [_emit_final] call made for [spk]. *)
Definition emit_periodic_tick (now : Q) (clock : str -> Q) (e : Emitter)
  : Emitter * list Payload :=
  fold_left
    (fun acc item =>
       let '(e1, out) := acc in
       let '(speaker, curr) := item in
       let '(e2, o) := emit_periodic_body now (clock speaker) speaker curr e1 in
       (e2, out ++ match o with Some p => [p] | None => [] end))
    (Dict.items (curr_by_speaker e)) (e, []).

(** [f"{spk}|{txt}"] for the stripped speaker and text. *)
Definition dedupe_key (speaker text : str) : str :=
  Py.strip speaker ++ lit "|" ++ Py.strip text.

(** The drop condition of the gate on a key. *)
Definition suppressed (now : Q) (key : str) (last_sent : Dict.t Q) : bool :=
  Dict.mem key last_sent
  && Qltb (now - Dict.get_default key 0 last_sent)%Q DEDUP_WINDOW_SECONDS.

(** An emission attempt: the clock inside [_emit_final], then its
    arguments. *)
Definition Attempt : Type := Q * str * str * Q.

Definition attempt_time (a : Attempt) : Q := fst (fst (fst a)).

(** Attempts made one after the other on the same [LAST_SENT]. *)
Definition emit_all (attempts : list Attempt) (last_sent : Dict.t Q)
  : Dict.t Q * list Payload :=
  fold_left
    (fun acc a =>
       let '(sent, out) := acc in
       let '(now, speaker, text, ts) := a in
       let '(sent', o) := _emit_final now speaker text ts sent in
       (sent', out ++ match o with Some p => [p] | None => [] end))
    attempts (last_sent, []).

(** A string that does not end in whitespace, as every snapshot
    [_on_caption] stores. *)
Fixpoint no_trailing_space (s : str) : bool :=
  match s with
  | [] => true
  | c :: s' =>
      match s' with
      | [] => negb (Py.isspace c)
      | _ :: _ => no_trailing_space s'
      end
  end.

(** The length of the longest common prefix of two strings, compared
    character by character without regard to case. *)
Fixpoint lcp_ci (a b : str) : nat :=
  match a, b with
  | x :: a', y :: b' =>
      if Py.eqb_char (Py.lower_char x) (Py.lower_char y)
      then S (lcp_ci a' b') else 0
  | _, _ => 0
  end.

Definition no_space (s : str) : bool :=
  forallb (fun c => negb (Py.isspace c)) s.

(** ** [CaptionSegmenter] *)

Record Segment := mkSegment {
  combined : str;
  frag : str;
  started_at : Q;
  updated_at : Q
}.

(** The constructor arguments of [CaptionSegmenter]. *)
Record Config := mkConfig {
  merge_consecutive : bool;
  idle_seconds : Q;
  merge_gap_seconds : Q;
  max_segment_seconds : Q;
  revision_window_seconds : Q;
  force_split_gap_seconds : Q
}.

(** The module-level defaults of [bot.py]. *)
Definition default_config : Config :=
  mkConfig false 2%Q 1%Q 20%Q 8%Q 30%Q.

(** A queued or flushed line: [(speaker, text, t_updated)]. *)
Definition Line : Type := str * str * Q.

(** The mutable part of a [CaptionSegmenter]. *)
Record State := mkState {
  _segments : Dict.t Segment;
  _completed : list Line
}.

Definition initial_state : State := mkState Dict.empty [].

(** [CaptionSegmenter._norm] *)
Fixpoint norm_loop (s : str) (last_space : bool) : str :=
  match s with
  | [] => []
  | ch :: s' =>
      if Py.isalnum ch then ch :: norm_loop s' false
      else if negb last_space then Py.space :: norm_loop s' true
           else norm_loop s' true
  end.

Definition _norm (s : str) : str :=
  Py.strip (norm_loop (Py.lower s) false).

(** [CaptionSegmenter._segment_text] *)
Definition _segment_text (seg : Segment) : str :=
  let combined := Py.strip (combined seg) in
  let frag := Py.strip (frag seg) in
  if negb (Py.is_empty combined) && negb (Py.is_empty frag)
  then Py.strip (combined ++ lit " " ++ frag)
  else Py.strip (if negb (Py.is_empty combined) then combined else frag).

(** The verdict of the spec's decision list. *)
Inductive Verdict := Merge | NoMerge.

Section Segmenter.

(** [difflib.SequenceMatcher(None, p, c).ratio()]; [None] stands for a
    raised exception. *)
Variable SequenceMatcher_ratio : str -> str -> option Q.

(** [CaptionSegmenter._should_merge] *)
Definition _should_merge (prev curr : str) : bool :=
  if Py.is_empty prev then true
  else if Py.is_empty curr then false
  else if Py.startswith curr prev || Py.startswith prev curr then true
  else
    let p := _norm prev in
    let c := _norm curr in
    if Py.is_empty p || Py.is_empty c then true
    else if Py.startswith c p || Py.startswith p c then true
    else if Py.str_in p c || Py.str_in c p then true
    else
      let tail := if 24 <? length p then Py.last_chars 24 p else p in
      if negb (Py.is_empty tail) && Py.str_in tail c then true
      else
        match SequenceMatcher_ratio p c with
        | Some r => Qgeb r (4 # 5)
        | None => false
        end.

(** The draft a speaker gets when a fragment starts. *)
Definition fresh (text : str) (now : Q) : Segment :=
  mkSegment [] text now now.

(** The three lines shared by every split of [update]: queue the
    materialized text of [seg] unless it is empty, then start over. *)
Definition split (speaker text : str) (now : Q) (seg : Segment)
           (st : State) : State :=
  let prev := _segment_text seg in
  let completed :=
    if negb (Py.is_empty prev)
    then _completed st ++ [(speaker, prev, updated_at seg)]
    else _completed st in
  mkState (Dict.set speaker (fresh text now) (_segments st)) completed.

(** [seg.frag = text; seg.updated_at = now] on the draft held in the
    dict. *)
Definition revise (speaker text : str) (now : Q) (seg : Segment)
           (st : State) : State :=
  mkState
    (Dict.set speaker
              (mkSegment (combined seg) text (started_at seg) now)
              (_segments st))
    (_completed st).

(** Grouped mode, short pause: the fragment moves into [combined]. *)
Definition fold_fragment (speaker text : str) (now : Q) (seg : Segment)
           (st : State) : State :=
  let frag := Py.strip (frag seg) in
  let combined' :=
    if negb (Py.is_empty frag)
    then
      let combined := Py.strip (combined seg) in
      if negb (Py.is_empty combined)
      then Py.strip (combined ++ lit " " ++ frag)
      else frag
    else combined seg in
  mkState
    (Dict.set speaker (mkSegment combined' text (started_at seg) now)
              (_segments st))
    (_completed st).

(** [CaptionSegmenter.update(speaker=, text=, ts=)]; [now] is the clock
    read inside the call. *)
Definition update (cfg : Config) (now : Q) (speaker text : str) (ts : Q)
           (st : State) : State :=
  if Py.is_empty text then st
  else
    match Dict.get speaker (_segments st) with
    | None =>
        mkState (Dict.set speaker (fresh text now) (_segments st))
                (_completed st)
    | Some seg =>
        let gap := (now - updated_at seg)%Q in
        if Qgtb gap (force_split_gap_seconds cfg)
        then split speaker text now seg st
        else if Qleb gap (revision_window_seconds cfg)
                && _should_merge (frag seg) text
        then revise speaker text now seg st
        else if Qgtb gap (revision_window_seconds cfg)
                && negb (_should_merge (frag seg) text)
        then split speaker text now seg st
        else if merge_consecutive cfg
        then
          if Qgtb gap (merge_gap_seconds cfg)
          then split speaker text now seg st
          else fold_fragment speaker text now seg st
        else revise speaker text now seg st
    end.

(** The two conditions of [flush_ready] on a live draft. *)
Definition stable (cfg : Config) (now : Q) (seg : Segment) : bool :=
  Qgeb (now - updated_at seg)%Q (idle_seconds cfg).

Definition too_long (cfg : Config) (now : Q) (seg : Segment) : bool :=
  Qgeb (now - started_at seg)%Q (max_segment_seconds cfg).

(** The condition of [flush_ready] on a queued line. *)
Definition due (cfg : Config) (now : Q) (l : Line) : bool :=
  Qgeb (now - snd l)%Q (idle_seconds cfg).

(** The first loop of [flush_ready]: [(to_flush, remaining)]. *)
Definition flush_completed (cfg : Config) (now : Q) (completed : list Line)
  : list Line * list Line :=
  match completed with
  | [] => ([], [])
  | _ :: _ =>
      fold_left
        (fun acc l =>
           let '(to_flush, remaining) := acc in
           if due cfg now l then (to_flush ++ [l], remaining)
           else (to_flush, remaining ++ [l]))
        completed ([], [])
  end.

(** The second loop of [flush_ready], over a snapshot of the items. *)
Definition flush_segments (cfg : Config) (now : Q)
           (to_flush : list Line) (segments : Dict.t Segment)
  : list Line * Dict.t Segment :=
  fold_left
    (fun acc item =>
       let '(to_flush, segments) := acc in
       let '(spk, seg) := item in
       if stable cfg now seg || too_long cfg now seg
       then (to_flush ++ [(spk, _segment_text seg, updated_at seg)],
             Dict.pop spk segments)
       else (to_flush, segments))
    (Dict.items segments) (to_flush, segments).

(** [CaptionSegmenter.flush_ready()]: the flushed lines and the state
    left behind. *)
Definition flush_ready (cfg : Config) (now : Q) (st : State)
  : list Line * State :=
  let '(to_flush, remaining) := flush_completed cfg now (_completed st) in
  let '(to_flush, segments) :=
    flush_segments cfg now to_flush (_segments st) in
  (to_flush, mkState segments remaining).

End Segmenter.

(** ** The merge judge as the spec words it

    An ordered list of rules, each a guard on [(previous, current)] with a
    verdict; the first rule whose guard holds decides, and when none does
    the fragment is new. *)

Definition Rule : Type := (str -> str -> bool) * Verdict.

(** "The last <=24 characters" of a string. *)
Definition last_upto (n : nat) (s : str) : str :=
  skipn (length s - n) s.

Definition similar (ratio : str -> str -> option Q) (p c : str) : bool :=
  match ratio p c with
  | Some r => Qle_bool (4 # 5) r
  | None => false
  end.

Definition decision_list (ratio : str -> str -> option Q) : list Rule :=
  [ (fun previous _ => Py.is_empty previous, Merge);
    (fun _ current => Py.is_empty current, NoMerge);
    (fun previous current =>
       Py.startswith current previous || Py.startswith previous current,
     Merge);
    (fun previous current =>
       Py.is_empty (_norm previous) || Py.is_empty (_norm current), Merge);
    (fun previous current =>
       let p := _norm previous in
       let c := _norm current in
       Py.startswith c p || Py.startswith p c
       || Py.str_in p c || Py.str_in c p,
     Merge);
    (fun previous current =>
       Py.str_in (last_upto 24 (_norm previous)) (_norm current), Merge);
    (fun previous current => similar ratio (_norm previous) (_norm current),
     Merge) ].

Fixpoint first_match (rules : list Rule) (previous current : str) : Verdict :=
  match rules with
  | [] => NoMerge
  | (guard, verdict) :: rest =>
      if guard previous current then verdict
      else first_match rest previous current
  end.

Definition spec_should_merge (ratio : str -> str -> option Q)
           (previous current : str) : Verdict :=
  first_match (decision_list ratio) previous current.

(** ** Runs of events *)

(** The condition under which [update] treats [text] as a revision of the
    draft [seg]. *)
Definition is_revision (ratio : str -> str -> option Q) (cfg : Config)
           (now : Q) (text : str) (seg : Segment) : Prop :=
  text <> []
  /\ (now - updated_at seg <= force_split_gap_seconds cfg)%Q
  /\ (now - updated_at seg <= revision_window_seconds cfg)%Q
  /\ _should_merge ratio (frag seg) text = true.

(** [continuously_revised st st']: [st'] comes from [st] by updates of one
    speaker that are all revisions of that speaker's draft. *)
Inductive continuously_revised (ratio : str -> str -> option Q)
          (cfg : Config) (speaker : str) : State -> State -> Prop :=
| cr_start st : continuously_revised ratio cfg speaker st st
| cr_revise st st' now text ts seg :
    continuously_revised ratio cfg speaker st st' ->
    Dict.get speaker (_segments st') = Some seg ->
    is_revision ratio cfg now text seg ->
    continuously_revised ratio cfg speaker st
                         (update ratio cfg now speaker text ts st').

(** The states a segmenter goes through: it starts empty and is only
    changed by [update] and [flush_ready]. *)
Inductive reachable (ratio : str -> str -> option Q) (cfg : Config)
  : State -> Prop :=
| reach_initial : reachable ratio cfg initial_state
| reach_update st now speaker text ts :
    reachable ratio cfg st ->
    reachable ratio cfg (update ratio cfg now speaker text ts st)
| reach_flush st now :
    reachable ratio cfg st ->
    reachable ratio cfg (snd (flush_ready cfg now st)).

(** The line [flush_ready] emits for a live draft. *)
Definition line_of (item : str * Segment) : Line :=
  (fst item, _segment_text (snd item), updated_at (snd item)).

Definition ready (cfg : Config) (now : Q) (item : str * Segment) : bool :=
  stable cfg now (snd item) || too_long cfg now (snd item).

(** ** Scenarios of the spec's testable properties *)

Definition Alice : str := lit "Alice".

(** "Hello", "Hello wor", "Hello world" from Alice at 0.5s intervals,
    the first at [t0]. *)
Definition hello1_at (ratio : str -> str -> option Q) (t0 : Q) : State :=
  update ratio default_config t0 Alice (lit "Hello") t0 initial_state.

Definition hello2_at (ratio : str -> str -> option Q) (t0 : Q) : State :=
  update ratio default_config (t0 + (1 # 2)) Alice (lit "Hello wor")
         (t0 + (1 # 2)) (hello1_at ratio t0).

Definition hello3_at (ratio : str -> str -> option Q) (t0 : Q) : State :=
  update ratio default_config (t0 + 1) Alice (lit "Hello world") (t0 + 1)
         (hello2_at ratio t0).

Definition hello1 (ratio : str -> str -> option Q) : State :=
  hello1_at ratio 0.

(** "Hello" at t=0, "Goodbye" at t=40. *)
Definition hello_goodbye (ratio : str -> str -> option Q) : State :=
  update ratio default_config 40 Alice (lit "Goodbye") 40 (hello1 ratio).

(** A draft holding only a blank. *)
Definition blank1 (ratio : str -> str -> option Q) : State :=
  update ratio default_config 0 Alice (lit " ") 0 initial_state.

(** One fragment revised at t=0, 7, 14 and 19: every gap is within the
    revision window. *)
Definition talk1 (ratio : str -> str -> option Q) : State :=
  update ratio default_config 0 Alice (lit "So") 0 initial_state.

Definition talk2 (ratio : str -> str -> option Q) : State :=
  update ratio default_config 7 Alice (lit "So we") 7 (talk1 ratio).

Definition talk3 (ratio : str -> str -> option Q) : State :=
  update ratio default_config 14 Alice (lit "So we ship") 14 (talk2 ratio).

Definition talk4 (ratio : str -> str -> option Q) : State :=
  update ratio default_config 19 Alice (lit "So we ship it") 19 (talk3 ratio).

(** Alice's emitted text is "The plan is" and her caption now reads
    "The plan is to ship". *)
Definition plan_emitter : Emitter :=
  mkEmitter [(Alice, lit "The plan is to ship")]
            [(Alice, lit "The plan is")] [].

(** Alice's emitted text is "Hello" and her caption now reads "Hello!". *)
Definition hello_emitter : Emitter :=
  mkEmitter [(Alice, lit "Hello!")] [(Alice, lit "Hello")] [].

(** ** Other helpers of [bot.py] *)

(** [_default_api_base()]; the two arguments are the module constants
    [API_BASE_URL] (stripped when it is read) and [BACKEND_URL]. *)
Definition _default_api_base (API_BASE_URL BACKEND_URL : str) : str :=
  if negb (Py.is_empty API_BASE_URL)
  then Py.rstrip_chars (lit "/") API_BASE_URL
  else
    let u := Py.rstrip_chars (lit "/") (Py.strip BACKEND_URL) in
    if Py.endswith u (lit "/captions")
    then Py.drop_last (length (lit "/captions")) u
    else [].

(** [meeting_id] of [_attach_caption_observer], from the path that
    [urlparse] finds in the meeting link. *)
Definition meeting_id (path : str) : str :=
  let last_part :=
    last (Py.split "/"%char (Py.strip_chars (lit "/") path)) [] in
  if negb (Py.is_empty last_part) then last_part else lit "unknown".

(** One round of the loop of [_monitor_alone_and_leave]: [count] is what
    [_get_dom_contributors_count] returned, [now] the clock read in the
    round; the result is the new [alone_since] and whether the bot leaves
    the call. *)
Definition alone_round (threshold : Q) (count : option Z) (now : Q)
           (alone_since : option Q) : option Q * bool :=
  match count with
  | Some 1%Z =>
      match alone_since with
      | None => (Some now, false)
      | Some since => (alone_since, Qgeb (now - since)%Q threshold)
      end
  | _ => (None, false)
  end.

(** The loop itself on the rounds it gets: the clock reading of the round
    in which the bot leaves, if it does. *)
Fixpoint alone_monitor (threshold : Q) (rounds : list (option Z * Q))
         (alone_since : option Q) : option Q :=
  match rounds with
  | [] => None
  | (count, now) :: rest =>
      let '(alone_since', leave) :=
        alone_round threshold count now alone_since in
      if leave then Some now else alone_monitor threshold rest alone_since'
  end.

(** ** Predicates of the further properties *)

(** Only lower-case letters and digits, and single blanks that follow
    one of them. *)
Fixpoint collapsed (last_space : bool) (w : str) : bool :=
  match w with
  | [] => true
  | c :: w' =>
      if Py.isalnum c
      then Py.eqb_char (Py.lower_char c) c && collapsed false w'
      else Py.eqb_char c Py.space && negb last_space && collapsed true w'
  end.

(** The shape of a normalized text: collapsed, with no blank at either
    end. *)
Definition normal_form (w : str) : bool :=
  collapsed true w && no_trailing_space w.

(** A text without a letter or a digit. *)
Definition no_alnum (s : str) : bool :=
  forallb (fun c => negb (Py.isalnum c)) s.

(** A snapshot as [_on_caption] stores it: trimmed and not empty. *)
Definition snapshot_ok (s : str) : Prop :=
  s <> [] /\ Py.strip s = s.

(** The invariant of [curr_by_speaker]: unique speakers, none of them
    empty, each with a trimmed snapshot. *)
Definition snapshots_ok (d : Dict.t str) : Prop :=
  Dict.wf d /\ Forall (fun kv => fst kv <> [] /\ snapshot_ok (snd kv)) d.

(** The speaker's emitted text leaves a delta too short to emit. *)
Definition settled (e : Emitter) (item : str * str) : Prop :=
  exists prev,
    Dict.get (fst item) (emitted_last_by_speaker e) = Some prev
    /\ prev <> []
    /\ length (tick_delta prev (snd item)) < 2.

(** The loop body of [emit_periodic_tick] on its accumulator. *)
Definition tick_step (now : Q) (clock : str -> Q)
           (acc : Emitter * list Payload) (item : str * str)
  : Emitter * list Payload :=
  let '(e1, out) := acc in
  let '(speaker, curr) := item in
  let '(e2, o) := emit_periodic_body now (clock speaker) speaker curr e1 in
  (e2, out ++ match o with Some p => [p] | None => [] end).

(** The speaker of a line. *)
Definition line_speaker (l : Line) : str := fst (fst l).

(** The rounds in which the participant count was 1. *)
Definition counted_alone (round : option Z * Q) : Prop :=
  fst round = Some 1%Z.

(** * Properties *)

(** ** Strings and comparisons *)

Lemma str_eqb_eq (a b : str) : str_eqb a b = true <-> a = b.
Proof.
  revert b; induction a as [|x a IH]; intros [|y b]; simpl;
    try (split; congruence).
  rewrite andb_true_iff. unfold Py.eqb_char. rewrite Ascii.eqb_eq, IH.
  split; [intros [-> ->]; reflexivity | intros E; inversion E; auto].
Qed.

Lemma str_eqb_refl (a : str) : str_eqb a a = true.
Proof. apply str_eqb_eq; reflexivity. Qed.

Lemma str_eqb_neq (a b : str) : str_eqb a b = false <-> a <> b.
Proof.
  rewrite <- str_eqb_eq. destruct (str_eqb a b); split; congruence.
Qed.

Lemma is_empty_true (s : str) : Py.is_empty s = true <-> s = [].
Proof. destruct s; simpl; split; congruence. Qed.

Lemma is_empty_false (s : str) : Py.is_empty s = false <-> s <> [].
Proof. destruct s; simpl; split; congruence. Qed.

Lemma Qleb_true (a b : Q) : Qleb a b = true <-> (a <= b)%Q.
Proof. apply Qle_bool_iff. Qed.

Lemma Qgeb_true (a b : Q) : Qgeb a b = true <-> (b <= a)%Q.
Proof. apply Qle_bool_iff. Qed.

Lemma Qle_bool_false (a b : Q) : Qle_bool a b = false <-> (b < a)%Q.
Proof.
  split; intros H.
  - apply Qnot_le_lt. intros L. apply Qle_bool_iff in L. congruence.
  - destruct (Qle_bool a b) eqn:E; [|reflexivity].
    apply Qle_bool_iff in E. exfalso. apply (Qlt_not_le _ _ H E).
Qed.

Lemma Qgtb_true (a b : Q) : Qgtb a b = true <-> (b < a)%Q.
Proof. unfold Qgtb. rewrite negb_true_iff. apply Qle_bool_false. Qed.

Lemma Qgtb_false (a b : Q) : Qgtb a b = false <-> (a <= b)%Q.
Proof. unfold Qgtb. rewrite negb_false_iff. apply Qle_bool_iff. Qed.

Lemma Qltb_true (a b : Q) : Qltb a b = true <-> (a < b)%Q.
Proof. unfold Qltb. rewrite negb_true_iff. apply Qle_bool_false. Qed.

Lemma Qltb_false (a b : Q) : Qltb a b = false <-> (b <= a)%Q.
Proof. unfold Qltb. rewrite negb_false_iff. apply Qle_bool_iff. Qed.

Lemma Qgeb_false (a b : Q) : Qgeb a b = false <-> (a < b)%Q.
Proof. apply Qle_bool_false. Qed.

Lemma Qleb_false (a b : Q) : Qleb a b = false <-> (b < a)%Q.
Proof. apply Qle_bool_false. Qed.

(** ** The merge judge *)

Lemma last_upto_nonempty (n : nat) (s : str) :
  0 < n -> s <> [] -> last_upto n s <> [].
Proof.
  intros Hn Hs E. apply (f_equal (@length ascii)) in E.
  unfold last_upto in E. rewrite length_skipn in E.
  destruct s; [congruence | cbn [length] in E; lia].
Qed.

Lemma tail_is_last_upto (p : str) :
  (if 24 <? length p then Py.last_chars 24 p else p) = last_upto 24 p.
Proof.
  unfold Py.last_chars, last_upto.
  destruct (24 <? length p) eqn:E; [reflexivity|].
  apply Nat.ltb_ge in E.
  replace (length p - 24) with 0 by lia. reflexivity.
Qed.

(** C1. [_should_merge previous current] is true exactly when the first
    rule of the spec's ordered decision list whose guard holds is a merge
    rule: previous empty, merge; current empty, no merge; one raw string a
    prefix of the other, merge; a normalized form empty, merge; normalized
    prefix or substring relation either way, merge; the last at most 24
    characters of normalized previous found in normalized current, merge;
    similarity ratio of the normalized forms at least 0.80, merge; no
    merge otherwise.  It holds whatever the ratio function is. *)
Theorem should_merge_decision_list
        (ratio : str -> str -> option Q) (previous current : str) :
  _should_merge ratio previous current = true
  <-> spec_should_merge ratio previous current = Merge.
Proof.
  unfold spec_should_merge, decision_list, _should_merge, first_match, similar.
  destruct (Py.is_empty previous); [tauto|].
  destruct (Py.is_empty current); [split; congruence|].
  destruct (Py.startswith current previous || Py.startswith previous current);
    [tauto|].
  cbv zeta.
  destruct (Py.is_empty (_norm previous)) eqn:Ep; [tauto|].
  destruct (Py.is_empty (_norm current)); [tauto|]. cbn [orb].
  destruct (Py.startswith (_norm current) (_norm previous)); [tauto|].
  destruct (Py.startswith (_norm previous) (_norm current)); [tauto|].
  cbn [orb].
  destruct (Py.str_in (_norm previous) (_norm current)); [tauto|].
  destruct (Py.str_in (_norm current) (_norm previous)); [tauto|].
  cbn [orb].
  rewrite tail_is_last_upto.
  assert (Hne : Py.is_empty (last_upto 24 (_norm previous)) = false).
  { apply is_empty_false, last_upto_nonempty; [lia|].
    apply is_empty_false, Ep. }
  rewrite Hne. cbn [negb andb].
  destruct (Py.str_in (last_upto 24 (_norm previous)) (_norm current));
    [tauto|].
  unfold Qgeb.
  destruct (ratio (_norm previous) (_norm current)) as [r|];
    [|split; congruence].
  destruct (Qle_bool (4 # 5) r); split; congruence.
Qed.

(** ** Dicts *)

Section DictFacts.
Context {V : Type}.
Implicit Types (d : Dict.t V) (k : str) (v : V).

Lemma get_set_same k v d : Dict.get k (Dict.set k v d) = Some v.
Proof.
  induction d as [|[k' v'] d IH]; simpl.
  - now rewrite str_eqb_refl.
  - destruct (str_eqb k k') eqn:E; simpl.
    + now rewrite str_eqb_refl.
    + now rewrite E.
Qed.

Lemma get_set_other k k' v d :
  k <> k' -> Dict.get k' (Dict.set k v d) = Dict.get k' d.
Proof.
  intros N. induction d as [|[k0 v0] d IH]; simpl.
  - assert (E : str_eqb k' k = false) by (apply str_eqb_neq; congruence).
    now rewrite E.
  - destruct (str_eqb k k0) eqn:E; simpl.
    + apply str_eqb_eq in E; subst k0.
      assert (E : str_eqb k' k = false) by (apply str_eqb_neq; congruence).
      now rewrite E.
    + now rewrite IH.
Qed.

Lemma get_none_keys k d : Dict.get k d = None <-> ~ In k (Dict.keys d).
Proof.
  induction d as [|[k' v'] d IH]; simpl; [tauto|].
  destruct (str_eqb k k') eqn:E.
  - apply str_eqb_eq in E. subst. split; [congruence | tauto].
  - apply str_eqb_neq in E. rewrite IH. split; [intros H [?|?] | ]; auto.
Qed.

Lemma get_some_in k v d : Dict.get k d = Some v -> In (k, v) d.
Proof.
  induction d as [|[k' v'] d IH]; simpl; [congruence|].
  destruct (str_eqb k k') eqn:E.
  - apply str_eqb_eq in E. intros [= ->]. subst. now left.
  - auto.
Qed.

Lemma in_keys k v d : In (k, v) d -> In k (Dict.keys d).
Proof. intros H. apply (in_map fst) in H. exact H. Qed.

Lemma in_get_some k v d : Dict.wf d -> In (k, v) d -> Dict.get k d = Some v.
Proof.
  unfold Dict.wf.
  induction d as [|[k' v'] d IH]; simpl; [tauto|].
  intros W [E|I].
  - inversion E; subst. now rewrite str_eqb_refl.
  - inversion W; subst.
    destruct (str_eqb k k') eqn:E; [|auto].
    apply str_eqb_eq in E; subst. exfalso. eauto using in_keys.
Qed.

Lemma keys_set k v d :
  Dict.keys (Dict.set k v d)
  = if Dict.mem k d then Dict.keys d else Dict.keys d ++ [k].
Proof.
  unfold Dict.mem.
  induction d as [|[k' v'] d IH]; simpl; [reflexivity|].
  destruct (str_eqb k k') eqn:E; simpl.
  - apply str_eqb_eq in E. now subst.
  - rewrite IH. now destruct (Dict.get k d).
Qed.

Lemma wf_set k v d : Dict.wf d -> Dict.wf (Dict.set k v d).
Proof.
  unfold Dict.wf. intros W. rewrite keys_set. unfold Dict.mem.
  destruct (Dict.get k d) eqn:E; [assumption|].
  apply get_none_keys in E.
  apply NoDup_rev in W. rewrite <- (rev_involutive (_ ++ _)).
  apply NoDup_rev. rewrite rev_app_distr. simpl.
  constructor; [rewrite <- in_rev; assumption | assumption].
Qed.

Lemma pop_app_notin k v (pre l : Dict.t V) :
  ~ In k (Dict.keys pre) -> Dict.pop k (pre ++ (k, v) :: l) = pre ++ l.
Proof.
  induction pre as [|[k' v'] pre IH]; simpl; intros N.
  - now rewrite str_eqb_refl.
  - assert (E : str_eqb k k' = false).
    { apply str_eqb_neq. intros ->. tauto. }
    rewrite E, IH; [reflexivity | tauto].
Qed.

Lemma get_pop_other k k' d :
  k <> k' -> Dict.get k' (Dict.pop k d) = Dict.get k' d.
Proof.
  intros N. induction d as [|[k0 v0] d IH]; simpl; [reflexivity|].
  destruct (str_eqb k k0) eqn:E; simpl.
  - apply str_eqb_eq in E; subst k0.
    assert (E : str_eqb k' k = false) by (apply str_eqb_neq; congruence).
    now rewrite E.
  - now rewrite IH.
Qed.

Lemma get_filter (P : str * V -> bool) k d :
  Dict.wf d ->
  Dict.get k (filter P d)
  = match Dict.get k d with
    | Some v => if P (k, v) then Some v else None
    | None => None
    end.
Proof.
  unfold Dict.wf.
  induction d as [|[k' v'] d IH]; simpl; [reflexivity|].
  intros W. inversion W as [|? ? Hn W']; subst.
  destruct (str_eqb k k') eqn:E.
  - apply str_eqb_eq in E; subst k'.
    destruct (P (k, v')) eqn:EP; simpl.
    + now rewrite str_eqb_refl.
    + apply get_none_keys. intros I. apply Hn.
      unfold Dict.keys in *. apply in_map_iff in I.
      destruct I as [[k0 v0] [E0 I]]. simpl in E0; subst k0.
      apply filter_In in I. destruct I as [I _].
      exact (in_keys _ _ _ I).
  - destruct (P (k', v')); simpl; [rewrite E|]; auto.
Qed.

End DictFacts.

(** ** [flush_ready] as a partition *)

Lemma flush_completed_fold (cfg : Config) (now : Q) (cs tf rem : list Line) :
  fold_left
    (fun acc l =>
       let '(to_flush, remaining) := acc in
       if due cfg now l then (to_flush ++ [l], remaining)
       else (to_flush, remaining ++ [l]))
    cs (tf, rem)
  = (tf ++ filter (due cfg now) cs,
     rem ++ filter (fun l => negb (due cfg now l)) cs).
Proof.
  revert tf rem. induction cs as [|l cs IH]; intros tf rem; simpl.
  - now rewrite !app_nil_r.
  - destruct (due cfg now l); rewrite IH; simpl;
      now rewrite <- app_assoc.
Qed.

Lemma flush_completed_partition (cfg : Config) (now : Q) (cs : list Line) :
  flush_completed cfg now cs
  = (filter (due cfg now) cs, filter (fun l => negb (due cfg now l)) cs).
Proof.
  unfold flush_completed. destruct cs as [|l cs]; [reflexivity|].
  now rewrite flush_completed_fold.
Qed.

Lemma flush_segments_fold (cfg : Config) (now : Q) (l pre : Dict.t Segment)
      (tf : list Line) :
  Dict.wf (pre ++ l) ->
  fold_left
    (fun acc item =>
       let '(to_flush, segments) := acc in
       let '(spk, seg) := item in
       if stable cfg now seg || too_long cfg now seg
       then (to_flush ++ [(spk, _segment_text seg, updated_at seg)],
             Dict.pop spk segments)
       else (to_flush, segments))
    l (tf, pre ++ l)
  = (tf ++ map line_of (filter (ready cfg now) l),
     pre ++ filter (fun item => negb (ready cfg now item)) l).
Proof.
  revert pre tf. induction l as [|[spk seg] l IH]; intros pre tf W; simpl.
  - now rewrite !app_nil_r.
  - assert (R : stable cfg now seg || too_long cfg now seg
                = ready cfg now (spk, seg)) by reflexivity.
    rewrite R. clear R.
    destruct (ready cfg now (spk, seg)) eqn:E; simpl.
    + rewrite pop_app_notin.
      * rewrite IH.
        -- now rewrite <- app_assoc.
        -- unfold Dict.wf, Dict.keys in *. rewrite map_app in *. simpl in W.
           now apply NoDup_remove_1 in W.
      * unfold Dict.wf, Dict.keys in W. rewrite map_app in W. simpl in W.
        apply NoDup_remove_2 in W. intros I. apply W, in_or_app. now left.
    + replace (pre ++ (spk, seg) :: l) with ((pre ++ [(spk, seg)]) ++ l)
        by now rewrite <- app_assoc.
      rewrite IH.
      * now rewrite <- app_assoc.
      * now rewrite <- app_assoc.
Qed.

Lemma flush_segments_filter (cfg : Config) (now : Q) (tf : list Line)
      (segs : Dict.t Segment) :
  Dict.wf segs ->
  flush_segments cfg now tf segs
  = (tf ++ map line_of (filter (ready cfg now) segs),
     filter (fun item => negb (ready cfg now item)) segs).
Proof.
  intros W. unfold flush_segments, Dict.items.
  exact (flush_segments_fold cfg now segs [] tf W).
Qed.

Lemma flush_ready_partition (cfg : Config) (now : Q) (st : State) :
  Dict.wf (_segments st) ->
  flush_ready cfg now st
  = (filter (due cfg now) (_completed st)
       ++ map line_of (filter (ready cfg now) (_segments st)),
     mkState (filter (fun item => negb (ready cfg now item)) (_segments st))
             (filter (fun l => negb (due cfg now l)) (_completed st))).
Proof.
  intros W. unfold flush_ready.
  rewrite flush_completed_partition, flush_segments_filter by assumption.
  reflexivity.
Qed.

Lemma wf_filter {V : Type} (P : str * V -> bool) (d : Dict.t V) :
  Dict.wf d -> Dict.wf (filter P d).
Proof.
  unfold Dict.wf. induction d as [|[k v] d IH]; simpl; [auto|].
  intros W. inversion W as [|? ? N W']; subst.
  destruct (P (k, v)); simpl; [|auto].
  constructor; [|auto]. intros I. apply N.
  unfold Dict.keys in *. apply in_map_iff in I.
  destruct I as ([k' v'] & E & I). simpl in E. subst k'.
  apply filter_In in I. destruct I as [I _]. exact (in_keys _ _ _ I).
Qed.

Lemma flush_ready_wf (cfg : Config) (now : Q) (st : State) :
  Dict.wf (_segments st) ->
  Dict.wf (_segments (snd (flush_ready cfg now st))).
Proof.
  intros W. rewrite flush_ready_partition by assumption. simpl.
  now apply wf_filter.
Qed.

(** [flush_ready] on a single live draft and an empty queue. *)
Lemma flush_ready_single (cfg : Config) (now : Q) (spk : str) (seg : Segment) :
  flush_ready cfg now (mkState [(spk, seg)] [])
  = if stable cfg now seg || too_long cfg now seg
    then ([(spk, _segment_text seg, updated_at seg)], initial_state)
    else ([], mkState [(spk, seg)] []).
Proof.
  rewrite flush_ready_partition.
  - simpl. unfold ready. simpl.
    destruct (stable cfg now seg || too_long cfg now seg); reflexivity.
  - unfold Dict.wf. simpl. constructor; [simpl; tauto | constructor].
Qed.

(** ** The cases of [update] *)

Ltac case_conditions :=
  repeat match goal with
         | |- context [if ?b then _ else _] => destruct b
         end.

Section UpdateCases.
Variable ratio : str -> str -> option Q.
Variable cfg : Config.

Lemma update_first now spk text ts st :
  text <> [] ->
  Dict.get spk (_segments st) = None ->
  update ratio cfg now spk text ts st
  = mkState (Dict.set spk (fresh text now) (_segments st)) (_completed st).
Proof.
  intros T G. unfold update.
  rewrite (proj2 (is_empty_false text) T), G. reflexivity.
Qed.

Lemma update_force_split now spk text ts st seg :
  text <> [] ->
  Dict.get spk (_segments st) = Some seg ->
  (force_split_gap_seconds cfg < now - updated_at seg)%Q ->
  update ratio cfg now spk text ts st = split spk text now seg st.
Proof.
  intros T G L. unfold update.
  rewrite (proj2 (is_empty_false text) T), G.
  now rewrite (proj2 (Qgtb_true _ _) L).
Qed.

Lemma update_revision now spk text ts st seg :
  Dict.get spk (_segments st) = Some seg ->
  is_revision ratio cfg now text seg ->
  update ratio cfg now spk text ts st = revise spk text now seg st.
Proof.
  intros G (T & F & R & M). unfold update.
  rewrite (proj2 (is_empty_false text) T), G.
  rewrite (proj2 (Qgtb_false _ _) F), (proj2 (Qleb_true _ _) R), M.
  reflexivity.
Qed.

(** Every branch of [update] leaves the queue alone or appends the old
    draft's text under the old draft's last update time. *)
Lemma update_queue now spk text ts st :
  _completed (update ratio cfg now spk text ts st) = _completed st
  \/ exists seg,
      Dict.get spk (_segments st) = Some seg
      /\ _segment_text seg <> []
      /\ _completed (update ratio cfg now spk text ts st)
         = _completed st ++ [(spk, _segment_text seg, updated_at seg)].
Proof.
  unfold update.
  destruct (Py.is_empty text); [now left|].
  destruct (Dict.get spk (_segments st)) as [seg|] eqn:G; [|now left].
  assert (S : _completed (split spk text now seg st) = _completed st
              \/ exists seg0,
                Some seg = Some seg0
                /\ _segment_text seg0 <> []
                /\ _completed (split spk text now seg st)
                   = _completed st
                       ++ [(spk, _segment_text seg0, updated_at seg0)]).
  { unfold split. simpl.
    destruct (Py.is_empty (_segment_text seg)) eqn:E; simpl; [now left|].
    right. exists seg. apply is_empty_false in E. auto. }
  case_conditions; auto.
Qed.

Lemma update_wf now spk text ts st :
  Dict.wf (_segments st) ->
  Dict.wf (_segments (update ratio cfg now spk text ts st)).
Proof.
  intros W. unfold update, split, revise, fold_fragment.
  destruct (Py.is_empty text); [assumption|].
  destruct (Dict.get spk (_segments st)) as [seg|]; simpl;
    [|now apply wf_set].
  case_conditions; simpl; now apply wf_set.
Qed.

End UpdateCases.

(** The dict invariant holds in every state a segmenter goes through. *)
Lemma reachable_wf (ratio : str -> str -> option Q) (cfg : Config)
      (st : State) :
  reachable ratio cfg st -> Dict.wf (_segments st).
Proof.
  induction 1 as [|st now speaker text ts _ IH|st now _ IH].
  - constructor.
  - now apply update_wf.
  - now apply flush_ready_wf.
Qed.

(** ** The draft state machine *)

(** After an update with a text that is not empty the speaker's draft
    holds that text, stamped with the clock reading of the call; its start
    is that reading or the start of the draft it continues. *)
Lemma update_stamps_clock (ratio : str -> str -> option Q) (cfg : Config)
      (now : Q) (speaker text : str) (ts : Q) (st : State) :
  text <> [] ->
  exists seg,
    Dict.get speaker (_segments (update ratio cfg now speaker text ts st))
    = Some seg
    /\ frag seg = text
    /\ updated_at seg = now
    /\ (started_at seg = now
        \/ exists old,
            Dict.get speaker (_segments st) = Some old
            /\ started_at seg = started_at old).
Proof.
  intros T. unfold update, split, revise, fold_fragment, fresh.
  rewrite (proj2 (is_empty_false text) T).
  destruct (Dict.get speaker (_segments st)) as [old|] eqn:G.
  - case_conditions; simpl; eexists; (split; [apply get_set_same|]); simpl;
      repeat split; solve [now left | right; now exists old].
  - simpl. eexists. split; [apply get_set_same|]. simpl.
    repeat split. now left.
Qed.

(** C9. [update] never looks at its [ts] argument: at one clock reading,
    two calls that differ only in [ts] leave the same state behind,
    queued segments included; the times it stores are the clock reading
    of the call and times already in the state. *)
Theorem update_ignores_ts (ratio : str -> str -> option Q) (cfg : Config)
        (now : Q) (speaker text : str) (ts1 ts2 : Q) (st : State) :
  update ratio cfg now speaker text ts1 st
  = update ratio cfg now speaker text ts2 st
  /\ (text <> [] ->
      exists seg,
        Dict.get speaker (_segments (update ratio cfg now speaker text ts1 st))
        = Some seg
        /\ frag seg = text
        /\ updated_at seg = now
        /\ (started_at seg = now
            \/ exists old,
                Dict.get speaker (_segments st) = Some old
                /\ started_at seg = started_at old))
  /\ (_completed (update ratio cfg now speaker text ts1 st) = _completed st
      \/ exists old,
          Dict.get speaker (_segments st) = Some old
          /\ _completed (update ratio cfg now speaker text ts1 st)
             = _completed st
                 ++ [(speaker, _segment_text old, updated_at old)]).
Proof.
  split; [reflexivity|]. split.
  - apply update_stamps_clock.
  - destruct (update_queue ratio cfg now speaker text ts1 st)
      as [E|(old & G & _ & E)]; [now left|].
    right. now exists old.
Qed.

(** An instance: the second "Hello" caption, stamped 0 or 99. *)
Lemma update_ignores_ts_witness :
  lit "Hello wor" <> []
  /\ update Difflib.ratio default_config (1 # 2) Alice (lit "Hello wor") 0
            (hello1 Difflib.ratio)
     = update Difflib.ratio default_config (1 # 2) Alice (lit "Hello wor") 99
              (hello1 Difflib.ratio)
  /\ exists seg,
      Dict.get Alice
               (_segments (update Difflib.ratio default_config (1 # 2) Alice
                                  (lit "Hello wor") 0 (hello1 Difflib.ratio)))
      = Some seg
      /\ frag seg = lit "Hello wor"
      /\ updated_at seg = (1 # 2)%Q
      /\ (started_at seg = (1 # 2)%Q
          \/ exists old,
              Dict.get Alice (_segments (hello1 Difflib.ratio)) = Some old
              /\ started_at seg = started_at old).
Proof.
  assert (T : lit "Hello wor" <> []) by discriminate.
  split; [exact T|].
  pose proof (update_ignores_ts Difflib.ratio default_config (1 # 2)%Q Alice
                (lit "Hello wor") 0%Q 99%Q (hello1 Difflib.ratio))
    as (E & S & _).
  split; [exact E | exact (S T)].
Defined.

Lemma hello1_state (ratio : str -> str -> option Q) (t0 : Q) :
  hello1_at ratio t0 = mkState [(Alice, mkSegment [] (lit "Hello") t0 t0)] [].
Proof. reflexivity. Qed.

Lemma hello2_state (ratio : str -> str -> option Q) (t0 : Q) :
  hello2_at ratio t0
  = mkState [(Alice, mkSegment [] (lit "Hello wor") t0 (t0 + (1 # 2)))] [].
Proof.
  unfold hello2_at. rewrite hello1_state.
  rewrite (update_revision ratio default_config _ Alice _ _ _
                           (mkSegment [] (lit "Hello") t0 t0));
    [reflexivity | reflexivity |].
  unfold is_revision. simpl.
  repeat split; [discriminate | lra | lra].
Qed.

Lemma hello3_state (ratio : str -> str -> option Q) (t0 : Q) :
  hello3_at ratio t0
  = mkState [(Alice, mkSegment [] (lit "Hello world") t0 (t0 + 1))] [].
Proof.
  unfold hello3_at. rewrite hello2_state.
  rewrite (update_revision ratio default_config _ Alice _ _ _
                           (mkSegment [] (lit "Hello wor") t0 (t0 + (1 # 2))));
    [reflexivity | reflexivity |].
  unfold is_revision. simpl.
  repeat split; [discriminate | lra | lra].
Qed.

Lemma hello_goodbye_state (ratio : str -> str -> option Q) :
  hello_goodbye ratio
  = mkState [(Alice, mkSegment [] (lit "Goodbye") 40 40)]
            [(Alice, lit "Hello", 0%Q)].
Proof. reflexivity. Qed.

(** A flush tick on one default-configured draft that is neither idle nor
    over the cap. *)
Lemma flush_ready_quiet (now : Q) (spk : str) (seg : Segment) :
  (now - updated_at seg < 2)%Q ->
  (now - started_at seg < 20)%Q ->
  flush_ready default_config now (mkState [(spk, seg)] [])
  = ([], mkState [(spk, seg)] []).
Proof.
  intros I C. rewrite flush_ready_single. unfold stable, too_long.
  rewrite (proj2 (Qgeb_false _ _)) by exact I.
  rewrite (proj2 (Qgeb_false _ _)) by exact C.
  reflexivity.
Qed.

Lemma flush_ready_idle (now : Q) (spk : str) (seg : Segment) :
  (2 <= now - updated_at seg)%Q ->
  flush_ready default_config now (mkState [(spk, seg)] [])
  = ([(spk, _segment_text seg, updated_at seg)], initial_state).
Proof.
  intros I. rewrite flush_ready_single. unfold stable.
  rewrite (proj2 (Qgeb_true _ _)) by exact I.
  reflexivity.
Qed.

(** C2.  With a draft for the speaker, an event that reaches the revision
    test of [update] (its text is not empty and its gap since the draft's
    last update did not exceed [force_split_gap_seconds], the test
    [update] makes first), whose gap is at most [revision_window_seconds]
    and which [_should_merge] accepts against the draft's fragment, only
    overwrites the draft's fragment and last update time: the draft is
    not split and the queue is untouched.  "Hello", "Hello wor",
    "Hello world" from Alice at 0.5s intervals from any time [t0] under
    the default configuration: no tick earlier than 3s after [t0] flushes
    anything, and every tick from then on flushes the single line
    "Hello world".  When the revision window is no longer than the
    force-split gap, as with the module's 8s and 30s, the gap within the
    revision window is all the event needs. *)
Theorem revision_overwrites_draft (ratio : str -> str -> option Q) :
  (forall cfg now speaker text ts st seg,
      Dict.get speaker (_segments st) = Some seg ->
      is_revision ratio cfg now text seg ->
      update ratio cfg now speaker text ts st
      = mkState
          (Dict.set speaker
                    (mkSegment (combined seg) text (started_at seg) now)
                    (_segments st))
          (_completed st))
  /\ (forall t0 tick, (tick < t0 + 2)%Q ->
        flush_ready default_config tick (hello1_at ratio t0)
        = ([], hello1_at ratio t0))
  /\ (forall t0 tick, (tick < t0 + (5 # 2))%Q ->
        flush_ready default_config tick (hello2_at ratio t0)
        = ([], hello2_at ratio t0))
  /\ (forall t0 tick, (tick < t0 + 3)%Q ->
        flush_ready default_config tick (hello3_at ratio t0)
        = ([], hello3_at ratio t0))
  /\ (forall t0 tick, (t0 + 3 <= tick)%Q ->
        flush_ready default_config tick (hello3_at ratio t0)
        = ([(Alice, lit "Hello world", (t0 + 1)%Q)], initial_state))
  /\ (forall cfg now speaker text ts st seg,
        (revision_window_seconds cfg <= force_split_gap_seconds cfg)%Q ->
        Dict.get speaker (_segments st) = Some seg ->
        text <> [] ->
        (now - updated_at seg <= revision_window_seconds cfg)%Q ->
        _should_merge ratio (frag seg) text = true ->
        update ratio cfg now speaker text ts st
        = mkState
            (Dict.set speaker
                      (mkSegment (combined seg) text (started_at seg) now)
                      (_segments st))
            (_completed st)).
Proof.
  split; [|split; [|split; [|split; [|split]]]].
  - intros cfg now speaker text ts st seg G R.
    now rewrite (update_revision ratio cfg now speaker text ts st seg G R).
  - intros t0 tick H. rewrite hello1_state.
    apply flush_ready_quiet; simpl; lra.
  - intros t0 tick H. rewrite hello2_state.
    apply flush_ready_quiet; simpl; lra.
  - intros t0 tick H. rewrite hello3_state.
    apply flush_ready_quiet; simpl; lra.
  - intros t0 tick H. rewrite hello3_state.
    rewrite flush_ready_idle by (simpl; lra). reflexivity.
  - intros cfg now speaker text ts st seg O G T R M.
    assert (I : is_revision ratio cfg now text seg).
    { unfold is_revision. repeat split; try assumption.
      now apply (Qle_trans _ (revision_window_seconds cfg)). }
    now rewrite (update_revision ratio cfg now speaker text ts st seg G I).
Qed.

(** Instances: "Hello wor" half a second after "Hello", and "Hello world"
    at the very end of the revision window, 8s after "Hello". *)
Lemma revision_overwrites_draft_witness :
  Dict.get Alice (_segments (hello1 Difflib.ratio))
  = Some (mkSegment [] (lit "Hello") 0 0)
  /\ is_revision Difflib.ratio default_config (1 # 2) (lit "Hello wor")
                 (mkSegment [] (lit "Hello") 0 0)
  /\ update Difflib.ratio default_config (1 # 2) Alice (lit "Hello wor") 7
            (hello1 Difflib.ratio)
     = mkState [(Alice, mkSegment [] (lit "Hello wor") 0 (1 # 2))] []
  /\ (1 < 0 + 2)%Q
  /\ flush_ready default_config 1 (hello1_at Difflib.ratio 0)
     = ([], hello1_at Difflib.ratio 0)
  /\ (0 + 3 <= 3)%Q
  /\ flush_ready default_config 3 (hello3_at Difflib.ratio 0)
     = ([(Alice, lit "Hello world", (0 + 1)%Q)], initial_state)
  /\ (revision_window_seconds default_config
      <= force_split_gap_seconds default_config)%Q
  /\ lit "Hello world" <> []
  /\ (8 - updated_at (mkSegment [] (lit "Hello") 0 0)
      <= revision_window_seconds default_config)%Q
  /\ _should_merge Difflib.ratio (frag (mkSegment [] (lit "Hello") 0 0))
                   (lit "Hello world") = true
  /\ update Difflib.ratio default_config 8 Alice (lit "Hello world") 8
            (hello1 Difflib.ratio)
     = mkState [(Alice, mkSegment [] (lit "Hello world") 0 8)] [].
Proof.
  assert (G : Dict.get Alice (_segments (hello1 Difflib.ratio))
              = Some (mkSegment [] (lit "Hello") 0 0)) by reflexivity.
  assert (O : (revision_window_seconds default_config
               <= force_split_gap_seconds default_config)%Q)
    by (vm_compute; discriminate).
  assert (T : lit "Hello world" <> []) by discriminate.
  assert (W : (8 - updated_at (mkSegment [] (lit "Hello") 0 0)
               <= revision_window_seconds default_config)%Q)
    by (vm_compute; discriminate).
  assert (M : _should_merge Difflib.ratio
                (frag (mkSegment [] (lit "Hello") 0 0)) (lit "Hello world")
              = true) by reflexivity.
  assert (R : is_revision Difflib.ratio default_config (1 # 2)
                          (lit "Hello wor") (mkSegment [] (lit "Hello") 0 0)).
  { unfold is_revision. repeat split;
      [discriminate | vm_compute; discriminate | vm_compute; discriminate]. }
  assert (E : (1 < 0 + 2)%Q) by reflexivity.
  assert (L : (0 + 3 <= 3)%Q) by (vm_compute; discriminate).
  split; [exact G|]. split; [exact R|]. split; [|split; [exact E|split;
    [|split; [exact L|split; [|split; [exact O|split; [exact T|split;
    [exact W|split; [exact M|]]]]]]]]].
  - exact (proj1 (revision_overwrites_draft Difflib.ratio)
                 default_config (1 # 2)%Q Alice (lit "Hello wor") 7%Q
                 (hello1 Difflib.ratio) _ G R).
  - exact (proj1 (proj2 (revision_overwrites_draft Difflib.ratio))
                 0%Q 1%Q E).
  - exact (proj1 (proj2 (proj2 (proj2 (proj2
             (revision_overwrites_draft Difflib.ratio))))) 0%Q 3%Q L).
  - exact (proj2 (proj2 (proj2 (proj2 (proj2
             (revision_overwrites_draft Difflib.ratio)))))
                 default_config 8%Q Alice (lit "Hello world") 8%Q
                 (hello1 Difflib.ratio) _ O G T W M).
Defined.

(** C3, amended.  With a draft for the speaker, an event whose text is
    not empty and whose gap since the draft's last update exceeds
    [force_split_gap_seconds] replaces the draft with a fresh one holding
    the new text, whatever the two texts are, and queues the old draft's
    materialized text when that text is not empty.  "Hello" at t=0 then
    "Goodbye" at t=40 from Alice under the default configuration: "Hello"
    is queued, "Goodbye" is the new draft, and the flush ticks emit the
    two lines separately. *)
Theorem force_split_queues_draft (ratio : str -> str -> option Q) :
  (forall cfg now speaker text ts st seg,
      text <> [] ->
      Dict.get speaker (_segments st) = Some seg ->
      (force_split_gap_seconds cfg < now - updated_at seg)%Q ->
      update ratio cfg now speaker text ts st
      = mkState
          (Dict.set speaker (mkSegment [] text now now) (_segments st))
          (if Py.is_empty (_segment_text seg) then _completed st
           else _completed st
                  ++ [(speaker, _segment_text seg, updated_at seg)]))
  /\ hello_goodbye ratio
     = mkState [(Alice, mkSegment [] (lit "Goodbye") 40 40)]
               [(Alice, lit "Hello", 0%Q)]
  /\ (forall tick, (42 <= tick)%Q ->
        flush_ready default_config tick (hello_goodbye ratio)
        = ([(Alice, lit "Hello", 0%Q); (Alice, lit "Goodbye", 40%Q)],
           initial_state))
  /\ (forall tick tick', (40 <= tick)%Q -> (tick < 42)%Q -> (42 <= tick')%Q ->
        exists st,
          flush_ready default_config tick (hello_goodbye ratio)
          = ([(Alice, lit "Hello", 0%Q)], st)
          /\ flush_ready default_config tick' st
             = ([(Alice, lit "Goodbye", 40%Q)], initial_state)).
Proof.
  assert (W : Dict.wf [(Alice, mkSegment [] (lit "Goodbye") 40 40)]).
  { unfold Dict.wf. simpl. constructor; [simpl; tauto | constructor]. }
  split; [|split; [reflexivity|split]].
  - intros cfg now speaker text ts st seg T G L.
    rewrite (update_force_split ratio cfg now speaker text ts st seg T G L).
    unfold split, fresh.
    now destruct (Py.is_empty (_segment_text seg)).
  - intros tick H. rewrite hello_goodbye_state.
    rewrite flush_ready_partition by exact W.
    unfold ready, due, stable, too_long. simpl.
    rewrite !(proj2 (Qgeb_true _ _)) by (simpl; lra).
    reflexivity.
  - intros tick tick' H1 H2 H3. rewrite hello_goodbye_state.
    exists (mkState [(Alice, mkSegment [] (lit "Goodbye") 40 40)] []). split.
    + rewrite flush_ready_partition by exact W.
      unfold ready, due, stable, too_long. simpl.
      rewrite (proj2 (Qgeb_true (tick - 0) 2)) by lra.
      rewrite (proj2 (Qgeb_false (tick - 40) 2)) by lra.
      rewrite (proj2 (Qgeb_false (tick - 40) 20)) by lra.
      reflexivity.
    + now rewrite flush_ready_idle by (simpl; lra).
Qed.

(** C3 as stated fails on a draft whose text is blank: the gap forces the
    split, but nothing is queued. *)
Lemma force_split_claim_counterexample :
  Dict.get Alice (_segments (blank1 Difflib.ratio))
  = Some (mkSegment [] (lit " ") 0 0)
  /\ lit "Goodbye" <> []
  /\ (force_split_gap_seconds default_config < 40 - 0)%Q
  /\ update Difflib.ratio default_config 40 Alice (lit "Goodbye") 40
            (blank1 Difflib.ratio)
     = mkState [(Alice, mkSegment [] (lit "Goodbye") 40 40)] [].
Proof.
  repeat split; try reflexivity; discriminate.
Qed.

(** An instance: "Goodbye" 40s after "Hello". *)
Lemma force_split_queues_draft_witness :
  lit "Goodbye" <> []
  /\ Dict.get Alice (_segments (hello1 Difflib.ratio))
     = Some (mkSegment [] (lit "Hello") 0 0)
  /\ (force_split_gap_seconds default_config < 40 - 0)%Q
  /\ update Difflib.ratio default_config 40 Alice (lit "Goodbye") 40
            (hello1 Difflib.ratio)
     = mkState [(Alice, mkSegment [] (lit "Goodbye") 40 40)]
               [(Alice, lit "Hello", 0%Q)]
  /\ flush_ready default_config 42 (hello_goodbye Difflib.ratio)
     = ([(Alice, lit "Hello", 0%Q); (Alice, lit "Goodbye", 40%Q)],
        initial_state).
Proof.
  assert (T : lit "Goodbye" <> []) by discriminate.
  assert (G : Dict.get Alice (_segments (hello1 Difflib.ratio))
              = Some (mkSegment [] (lit "Hello") 0 0)) by reflexivity.
  assert (L : (force_split_gap_seconds default_config < 40 - 0)%Q)
    by reflexivity.
  split; [exact T|]. split; [exact G|]. split; [exact L|]. split.
  - exact (proj1 (force_split_queues_draft Difflib.ratio)
                 default_config 40%Q Alice (lit "Goodbye") 40%Q
                 (hello1 Difflib.ratio) _ T G L).
  - apply (proj1 (proj2 (proj2 (force_split_queues_draft Difflib.ratio)))).
    vm_compute. discriminate.
Defined.

(** ** The idle flush *)

Lemma due_iff (cfg : Config) (now : Q) (l : Line) :
  due cfg now l = true <-> (idle_seconds cfg <= now - snd l)%Q.
Proof. unfold due. apply Qgeb_true. Qed.

Lemma ready_iff (cfg : Config) (now : Q) (spk : str) (seg : Segment) :
  ready cfg now (spk, seg) = true
  <-> (idle_seconds cfg <= now - updated_at seg)%Q
      \/ (max_segment_seconds cfg <= now - started_at seg)%Q.
Proof.
  unfold ready, stable, too_long. simpl.
  now rewrite orb_true_iff, !Qgeb_true.
Qed.

(** C6, amended.  The wait of a queued segment is measured from the time
    stored with it, which is the last update of the draft it was split
    from, not the time of the split: [flush_ready] hands over exactly the
    queued segments for which [now] minus that time is at least
    [idle_seconds] and keeps the others; every segment [update] queues
    carries the replaced draft's [updated_at]; so a segment queued by a
    force split, with [idle_seconds <= force_split_gap_seconds], is
    already handed over by a flush at the instant of the split. *)
Theorem completed_due_from_last_update
        (ratio : str -> str -> option Q) (cfg : Config) :
  (forall now st,
      Dict.wf (_segments st) ->
      fst (flush_ready cfg now st)
      = filter (due cfg now) (_completed st)
          ++ map line_of (filter (ready cfg now) (_segments st))
      /\ _completed (snd (flush_ready cfg now st))
         = filter (fun l => negb (due cfg now l)) (_completed st))
  /\ (forall now l,
         due cfg now l = true <-> (idle_seconds cfg <= now - snd l)%Q)
  /\ (forall now speaker text ts st,
         _completed (update ratio cfg now speaker text ts st) = _completed st
         \/ exists seg,
             Dict.get speaker (_segments st) = Some seg
             /\ _segment_text seg <> []
             /\ _completed (update ratio cfg now speaker text ts st)
                = _completed st
                    ++ [(speaker, _segment_text seg, updated_at seg)])
  /\ (forall now speaker text ts st seg,
         Dict.wf (_segments st) ->
         text <> [] ->
         Dict.get speaker (_segments st) = Some seg ->
         _segment_text seg <> [] ->
         (force_split_gap_seconds cfg < now - updated_at seg)%Q ->
         (idle_seconds cfg <= force_split_gap_seconds cfg)%Q ->
         In (speaker, _segment_text seg, updated_at seg)
            (fst (flush_ready cfg now
                              (update ratio cfg now speaker text ts st)))).
Proof.
  split; [|split; [|split]].
  - intros now st W. now rewrite flush_ready_partition.
  - intros now l. apply due_iff.
  - intros now speaker text ts st. apply update_queue.
  - intros now speaker text ts st seg W T G N L I.
    rewrite flush_ready_partition by now apply update_wf.
    rewrite (update_force_split ratio cfg now speaker text ts st seg T G L).
    unfold split. simpl.
    rewrite (proj2 (is_empty_false _) N). simpl.
    apply in_or_app. left. apply filter_In. split.
    + apply in_or_app. right. now left.
    + apply due_iff. simpl. lra.
Qed.

(** C6 as stated fails: "Hello" is split off at t=40, and a flush at t=40,
    no time after the split, already hands it over. *)
Lemma completed_wait_claim_counterexample :
  update Difflib.ratio default_config 40 Alice (lit "Goodbye") 40
         (hello1 Difflib.ratio)
  = mkState [(Alice, mkSegment [] (lit "Goodbye") 40 40)]
            [(Alice, lit "Hello", 0%Q)]
  /\ (40 - 40 < idle_seconds default_config)%Q
  /\ flush_ready default_config 40
       (mkState [(Alice, mkSegment [] (lit "Goodbye") 40 40)]
                [(Alice, lit "Hello", 0%Q)])
     = ([(Alice, lit "Hello", 0%Q)],
        mkState [(Alice, mkSegment [] (lit "Goodbye") 40 40)] []).
Proof. repeat split. Qed.

(** An instance: "Hello" split off at t=40 and flushed at t=40. *)
Lemma completed_due_from_last_update_witness :
  Dict.wf (_segments (hello1 Difflib.ratio))
  /\ lit "Goodbye" <> []
  /\ Dict.get Alice (_segments (hello1 Difflib.ratio))
     = Some (mkSegment [] (lit "Hello") 0 0)
  /\ _segment_text (mkSegment [] (lit "Hello") 0 0) <> []
  /\ (force_split_gap_seconds default_config < 40 - 0)%Q
  /\ (idle_seconds default_config <= force_split_gap_seconds default_config)%Q
  /\ In (Alice, lit "Hello", 0%Q)
        (fst (flush_ready default_config 40
                (update Difflib.ratio default_config 40 Alice
                        (lit "Goodbye") 40 (hello1 Difflib.ratio)))).
Proof.
  assert (W : Dict.wf (_segments (hello1 Difflib.ratio))).
  { unfold Dict.wf. simpl. constructor; [simpl; tauto | constructor]. }
  assert (T : lit "Goodbye" <> []) by discriminate.
  assert (G : Dict.get Alice (_segments (hello1 Difflib.ratio))
              = Some (mkSegment [] (lit "Hello") 0 0)) by reflexivity.
  assert (N : _segment_text (mkSegment [] (lit "Hello") 0 0) <> [])
    by discriminate.
  assert (L : (force_split_gap_seconds default_config < 40 - 0)%Q)
    by reflexivity.
  assert (I : (idle_seconds default_config
               <= force_split_gap_seconds default_config)%Q)
    by (vm_compute; discriminate).
  repeat (split; [assumption|]).
  exact (proj2 (proj2 (proj2
           (completed_due_from_last_update Difflib.ratio default_config)))
           40%Q Alice (lit "Goodbye") 40%Q (hello1 Difflib.ratio) _
           W T G N L I).
Defined.

(** A run of revisions keeps the draft, its start time and the queue. *)
Lemma continuously_revised_keeps_start
      (ratio : str -> str -> option Q) (cfg : Config) (speaker : str)
      (st0 st : State) (seg0 : Segment) :
  Dict.wf (_segments st0) ->
  Dict.get speaker (_segments st0) = Some seg0 ->
  continuously_revised ratio cfg speaker st0 st ->
  Dict.wf (_segments st)
  /\ _completed st = _completed st0
  /\ exists seg,
      Dict.get speaker (_segments st) = Some seg
      /\ started_at seg = started_at seg0.
Proof.
  intros W G R. induction R as [st0|st0 st' now text ts seg R IH G' Rev].
  - split; [assumption|]. split; [reflexivity|]. now exists seg0.
  - destruct (IH W G) as (W' & C & seg1 & G1 & S1).
    rewrite G1 in G'. injection G' as ->.
    rewrite (update_revision ratio cfg now speaker text ts st' seg G1 Rev).
    unfold revise. simpl. split; [now apply wf_set|]. split; [assumption|].
    eexists. split; [apply get_set_same|]. simpl. assumption.
Qed.

(** C4.  On a flush tick a live draft is flushed, as the line of its
    materialized text, and removed from the per-speaker dict if and only
    if it has had no update for at least [idle_seconds] or its age since
    [started_at] is at least [max_segment_seconds]; a draft that is not
    flushed stays as it is.  A fragment that is revised again and again
    keeps its [started_at], so a tick at or after the cap flushes it
    however recent its last update. *)
Theorem flush_ready_retires_ready_drafts
        (ratio : str -> str -> option Q) (cfg : Config) :
  (forall now st speaker seg,
      Dict.wf (_segments st) ->
      Dict.get speaker (_segments st) = Some seg ->
      fst (flush_ready cfg now st)
      = filter (due cfg now) (_completed st)
          ++ map line_of (filter (ready cfg now) (_segments st))
      /\ (((idle_seconds cfg <= now - updated_at seg)%Q
           \/ (max_segment_seconds cfg <= now - started_at seg)%Q)
          <-> (In (speaker, _segment_text seg, updated_at seg)
                  (map line_of (filter (ready cfg now) (_segments st)))
               /\ Dict.get speaker (_segments (snd (flush_ready cfg now st)))
                  = None))
      /\ (~ ((idle_seconds cfg <= now - updated_at seg)%Q
             \/ (max_segment_seconds cfg <= now - started_at seg)%Q) ->
          Dict.get speaker (_segments (snd (flush_ready cfg now st)))
          = Some seg
          /\ forall item,
              In item (filter (ready cfg now) (_segments st)) ->
              fst item <> speaker))
  /\ (forall now st0 st speaker seg0,
         Dict.wf (_segments st0) ->
         Dict.get speaker (_segments st0) = Some seg0 ->
         continuously_revised ratio cfg speaker st0 st ->
         (max_segment_seconds cfg <= now - started_at seg0)%Q ->
         exists seg,
           Dict.get speaker (_segments st) = Some seg
           /\ started_at seg = started_at seg0
           /\ In (speaker, _segment_text seg, updated_at seg)
                 (fst (flush_ready cfg now st))
           /\ Dict.get speaker (_segments (snd (flush_ready cfg now st)))
              = None).
Proof.
  assert (Main : forall now st speaker seg,
             Dict.wf (_segments st) ->
             Dict.get speaker (_segments st) = Some seg ->
             (ready cfg now (speaker, seg) = true ->
              In (speaker, _segment_text seg, updated_at seg)
                 (map line_of (filter (ready cfg now) (_segments st)))
              /\ Dict.get speaker (_segments (snd (flush_ready cfg now st)))
                 = None)
             /\ (ready cfg now (speaker, seg) = false ->
                 Dict.get speaker (_segments (snd (flush_ready cfg now st)))
                 = Some seg
                 /\ forall item,
                     In item (filter (ready cfg now) (_segments st)) ->
                     fst item <> speaker)).
  { intros now st speaker seg W G.
    rewrite flush_ready_partition by assumption. simpl.
    rewrite get_filter, G by assumption.
    split; intros E; rewrite E; simpl.
    - split; [|reflexivity].
      change (speaker, _segment_text seg, updated_at seg)
        with (line_of (speaker, seg)).
      apply in_map, filter_In. split; [now apply get_some_in | assumption].
    - split; [reflexivity|].
      intros [k v] I. simpl. intros ->.
      apply filter_In in I. destruct I as [I Rk].
      apply (in_get_some _ _ _ W) in I. rewrite G in I. injection I as <-.
      congruence. }
  split.
  - intros now st speaker seg W G.
    destruct (Main now st speaker seg W G) as [Yes No].
    split; [now rewrite flush_ready_partition|].
    rewrite <- ready_iff with (spk := speaker).
    split; [split|].
    + exact Yes.
    + intros [_ N]. destruct (ready cfg now (speaker, seg)); [reflexivity|].
      destruct (No eq_refl) as [S _]. congruence.
    + intros N. apply No.
      destruct (ready cfg now (speaker, seg)); [exfalso; now apply N|].
      reflexivity.
  - intros now st0 st speaker seg0 W G R Cap.
    destruct (continuously_revised_keeps_start ratio cfg speaker st0 st seg0
                                               W G R)
      as (W' & _ & seg & G' & S).
    exists seg. split; [assumption|]. split; [assumption|].
    assert (Rdy : ready cfg now (speaker, seg) = true).
    { apply ready_iff. right. now rewrite S. }
    destruct (Main now st speaker seg W' G') as [Yes _].
    destruct (Yes Rdy) as [I N]. split; [|assumption].
    rewrite flush_ready_partition by assumption. simpl.
    apply in_or_app. now right.
Qed.

(** The talk is a run of revisions. *)
Lemma talk_revised :
  continuously_revised Difflib.ratio default_config Alice
                       (talk1 Difflib.ratio) (talk4 Difflib.ratio).
Proof.
  assert (Rev : forall now text u,
             text <> [] ->
             Qleb (now - u) 8 = true ->
             forall old,
               Py.startswith text old = true ->
               old <> [] ->
               is_revision Difflib.ratio default_config now text
                           (mkSegment [] old 0 u)).
  { intros now text u T L old P O. unfold is_revision. simpl.
    apply Qleb_true in L.
    split; [assumption|]. split; [lra|]. split; [assumption|].
    unfold _should_merge.
    rewrite (proj2 (is_empty_false old) O), (proj2 (is_empty_false text) T).
    now rewrite P. }
  unfold talk4, talk3, talk2.
  eapply cr_revise; [eapply cr_revise; [eapply cr_revise; [apply cr_start|..]|..]|..];
    try reflexivity; apply Rev; try reflexivity; discriminate.
Defined.

(** An instance: the talk revised until t=19 is flushed at t=20, one
    second after its last update. *)
Lemma flush_ready_retires_ready_drafts_witness :
  Dict.wf (_segments (talk1 Difflib.ratio))
  /\ Dict.get Alice (_segments (talk1 Difflib.ratio))
     = Some (mkSegment [] (lit "So") 0 0)
  /\ continuously_revised Difflib.ratio default_config Alice
                          (talk1 Difflib.ratio) (talk4 Difflib.ratio)
  /\ (max_segment_seconds default_config <= 20 - 0)%Q
  /\ (20 - 19 < idle_seconds default_config)%Q
  /\ exists seg,
      Dict.get Alice (_segments (talk4 Difflib.ratio)) = Some seg
      /\ started_at seg = 0%Q
      /\ In (Alice, _segment_text seg, updated_at seg)
            (fst (flush_ready default_config 20 (talk4 Difflib.ratio)))
      /\ Dict.get Alice
           (_segments (snd (flush_ready default_config 20
                                        (talk4 Difflib.ratio))))
         = None.
Proof.
  assert (W : Dict.wf (_segments (talk1 Difflib.ratio))).
  { unfold Dict.wf. simpl. constructor; [simpl; tauto | constructor]. }
  assert (G : Dict.get Alice (_segments (talk1 Difflib.ratio))
              = Some (mkSegment [] (lit "So") 0 0)) by reflexivity.
  assert (C : (max_segment_seconds default_config <= 20 - 0)%Q)
    by (vm_compute; discriminate).
  split; [exact W|]. split; [exact G|]. split; [exact talk_revised|].
  split; [exact C|]. split; [reflexivity|].
  exact (proj2 (flush_ready_retires_ready_drafts Difflib.ratio default_config)
               20%Q (talk1 Difflib.ratio) (talk4 Difflib.ratio) Alice _
               W G talk_revised C).
Defined.

(** ** The dedup gate *)

Lemma emit_final_unfold (now : Q) (speaker text : str) (ts : Q)
      (last_sent : Dict.t Q) :
  _emit_final now speaker text ts last_sent
  = if Py.is_empty (Py.strip text) then (last_sent, None)
    else if suppressed now (dedupe_key speaker text) last_sent
         then (last_sent, None)
         else
           (let sent := Dict.set (dedupe_key speaker text) now last_sent in
            if 5000 <? Dict.len sent then prune (now - 120)%Q sent else sent,
            Some (Py.strip speaker, Py.strip text, ts)).
Proof. reflexivity. Qed.

Lemma suppressed_iff (now : Q) (key : str) (last_sent : Dict.t Q) :
  suppressed now key last_sent = true
  <-> exists v, Dict.get key last_sent = Some v
                /\ (now - v < DEDUP_WINDOW_SECONDS)%Q.
Proof.
  unfold suppressed, Dict.mem, Dict.get_default.
  destruct (Dict.get key last_sent) as [v|]; simpl.
  - rewrite Qltb_true. split; [intros H; now exists v|].
    intros (v' & [= <-] & H). exact H.
  - split; [discriminate | intros (v' & E & _); discriminate].
Qed.

Lemma keys_pop_incl {V : Type} (k x : str) (d : Dict.t V) :
  In x (Dict.keys (Dict.pop k d)) -> In x (Dict.keys d).
Proof.
  induction d as [|[k' v'] d IH]; simpl; [tauto|].
  destruct (str_eqb k k'); simpl; tauto.
Qed.

Lemma wf_pop {V : Type} (k : str) (d : Dict.t V) :
  Dict.wf d -> Dict.wf (Dict.pop k d).
Proof.
  unfold Dict.wf. induction d as [|[k' v'] d IH]; simpl; [auto|].
  intros W. inversion W as [|? ? N W']; subst.
  destruct (str_eqb k k'); simpl; [assumption|].
  constructor; [|auto]. intros I. apply N. eapply keys_pop_incl, I.
Qed.

Lemma prune_fold_wf (cutoff : Q) (l d : Dict.t Q) :
  Dict.wf d ->
  Dict.wf (fold_left
             (fun d kv =>
                if Qltb (snd kv) cutoff then Dict.pop (fst kv) d else d)
             l d).
Proof.
  revert d. induction l as [|[k v] l IH]; intros d W; simpl; [assumption|].
  apply IH. destruct (Qltb v cutoff); [now apply wf_pop | assumption].
Qed.

Lemma wf_prune (cutoff : Q) (d : Dict.t Q) :
  Dict.wf d -> Dict.wf (prune cutoff d).
Proof. apply prune_fold_wf. Qed.

Lemma prune_fold_get (cutoff : Q) (k : str) (l d : Dict.t Q) :
  (forall v, In (k, v) l -> Qltb v cutoff = false) ->
  Dict.get k
    (fold_left
       (fun d kv => if Qltb (snd kv) cutoff then Dict.pop (fst kv) d else d)
       l d)
  = Dict.get k d.
Proof.
  revert d. induction l as [|[k' v'] l IH]; intros d H; simpl; [reflexivity|].
  rewrite IH by (intros v I; apply H; now right).
  destruct (Qltb v' cutoff) eqn:E; [|reflexivity].
  apply get_pop_other. intros ->.
  rewrite (H v') in E by now left. discriminate.
Qed.

Lemma prune_keeps (cutoff : Q) (k : str) (v : Q) (d : Dict.t Q) :
  Dict.wf d ->
  Dict.get k d = Some v ->
  (cutoff <= v)%Q ->
  Dict.get k (prune cutoff d) = Some v.
Proof.
  intros W G C. unfold prune, Dict.items.
  rewrite prune_fold_get; [assumption|].
  intros v' I. apply (in_get_some _ _ _ W) in I.
  rewrite G in I. injection I as <-. now apply Qltb_false.
Qed.

Lemma wf_emit_final (now : Q) (speaker text : str) (ts : Q) (d : Dict.t Q) :
  Dict.wf d -> Dict.wf (fst (_emit_final now speaker text ts d)).
Proof.
  intros W. rewrite emit_final_unfold.
  destruct (Py.is_empty (Py.strip text)); [assumption|].
  destruct (suppressed now (dedupe_key speaker text) d); [assumption|].
  simpl. destruct (5000 <? _); [apply wf_prune|]; now apply wf_set.
Qed.

(** An attempt that passes the gate records its key under the clock
    reading, sweep or no sweep. *)
Lemma emit_final_records (now : Q) (speaker text : str) (ts : Q)
      (d : Dict.t Q) :
  Dict.wf d ->
  snd (_emit_final now speaker text ts d) <> None ->
  snd (_emit_final now speaker text ts d)
  = Some (Py.strip speaker, Py.strip text, ts)
  /\ Dict.get (dedupe_key speaker text)
              (fst (_emit_final now speaker text ts d))
     = Some now.
Proof.
  intros W. rewrite emit_final_unfold.
  destruct (Py.is_empty (Py.strip text)); [simpl; congruence|].
  destruct (suppressed now (dedupe_key speaker text) d); [simpl; congruence|].
  intros _. split; [reflexivity|]. simpl.
  destruct (5000 <? _).
  - apply prune_keeps; [now apply wf_set | apply get_set_same | lra].
  - apply get_set_same.
Qed.

(** An attempt that is dropped leaves [LAST_SENT] as it was. *)
Lemma emit_final_dropped (now : Q) (speaker text : str) (ts : Q)
      (d : Dict.t Q) :
  snd (_emit_final now speaker text ts d) = None ->
  fst (_emit_final now speaker text ts d) = d.
Proof.
  rewrite emit_final_unfold.
  destruct (Py.is_empty (Py.strip text)); [reflexivity|].
  destruct (suppressed now (dedupe_key speaker text) d); [reflexivity|].
  simpl. discriminate.
Qed.

(** While every attempt falls between [t1] and a [t2] less than the dedup
    window later, a key recorded at or after [t1] stays recorded at or
    after [t1]. *)
Lemma emit_final_keeps_recent (t1 t2 : Q) (key : str)
      (now : Q) (speaker text : str) (ts : Q) (d : Dict.t Q) :
  (t2 - t1 < DEDUP_WINDOW_SECONDS)%Q ->
  (t1 <= now)%Q -> (now <= t2)%Q ->
  Dict.wf d ->
  (exists v, Dict.get key d = Some v /\ (t1 <= v)%Q) ->
  exists v, Dict.get key (fst (_emit_final now speaker text ts d)) = Some v
            /\ (t1 <= v)%Q.
Proof.
  unfold DEDUP_WINDOW_SECONDS. intros Win Lo Hi W (v & G & Hv).
  rewrite emit_final_unfold.
  destruct (Py.is_empty (Py.strip text)); [now exists v|].
  destruct (suppressed now (dedupe_key speaker text) d); [now exists v|].
  simpl.
  assert (S : exists v', Dict.get key (Dict.set (dedupe_key speaker text) now d)
                         = Some v' /\ (t1 <= v')%Q).
  { destruct (str_eqb (dedupe_key speaker text) key) eqn:E.
    - apply str_eqb_eq in E. subst key. exists now.
      split; [apply get_set_same | assumption].
    - apply str_eqb_neq in E. exists v.
      split; [now rewrite get_set_other | assumption]. }
  destruct (5000 <? _); [|exact S].
  destruct S as (v' & G' & Hv'). exists v'. split; [|assumption].
  apply prune_keeps; [now apply wf_set | assumption | lra].
Qed.

Lemma emit_all_fst (attempts : list Attempt) (d : Dict.t Q) (out : list Payload) :
  fst (fold_left
         (fun acc a =>
            let '(sent, out) := acc in
            let '(now, speaker, text, ts) := a in
            let '(sent', o) := _emit_final now speaker text ts sent in
            (sent', out ++ match o with Some p => [p] | None => [] end))
         attempts (d, out))
  = fold_left
      (fun sent a =>
         let '(now, speaker, text, ts) := a in
         fst (_emit_final now speaker text ts sent))
      attempts d.
Proof.
  revert d out. induction attempts as [|[[[now spk] txt] ts] l IH];
    intros d out; simpl; [reflexivity|].
  destruct (_emit_final now spk txt ts d) as [d' o] eqn:E. simpl.
  now rewrite IH.
Qed.

Lemma emit_all_keeps_recent (t1 t2 : Q) (key : str) (attempts : list Attempt)
      (d : Dict.t Q) :
  (t2 - t1 < DEDUP_WINDOW_SECONDS)%Q ->
  Forall (fun a => (t1 <= attempt_time a)%Q /\ (attempt_time a <= t2)%Q)
         attempts ->
  Dict.wf d ->
  (exists v, Dict.get key d = Some v /\ (t1 <= v)%Q) ->
  exists v, Dict.get key (fst (emit_all attempts d)) = Some v /\ (t1 <= v)%Q.
Proof.
  intros Win F. unfold emit_all. rewrite emit_all_fst.
  revert d. induction F as [|[[[now spk] txt] ts] l [Lo Hi] F IH];
    intros d W G; simpl; [assumption|].
  apply IH; [now apply wf_emit_final|].
  now apply (emit_final_keeps_recent t1 t2).
Qed.

(** C8.  When [(speaker, text)] passes the gate at [t1], the same pair
    attempted again at a [t2] less than [DEDUP_WINDOW_SECONDS] (2s) after
    [t1] is dropped without a trace, also with other attempts in between,
    so at most one of the two reaches the sink.  The gate itself: with a
    text that is not blank, an attempt whose key [speaker|text] was
    recorded less than the window ago is dropped and changes nothing; any
    other is handed to the sink and its key recorded under the current
    time. *)
Theorem dedup_gate_drops_repeat :
  (forall last_sent speaker text ts1 ts2 t1 t2 others,
      Dict.wf last_sent ->
      (t2 - t1 < DEDUP_WINDOW_SECONDS)%Q ->
      Forall (fun a => (t1 <= attempt_time a)%Q /\ (attempt_time a <= t2)%Q)
             others ->
      let first := _emit_final t1 speaker text ts1 last_sent in
      let between := emit_all others (fst first) in
      let second := _emit_final t2 speaker text ts2 (fst between) in
      (snd first <> None -> second = (fst between, None))
      /\ (snd first = None \/ snd second = None))
  /\ (forall now speaker text ts last_sent,
         Dict.wf last_sent ->
         Py.strip text <> [] ->
         (suppressed now (dedupe_key speaker text) last_sent = true ->
          _emit_final now speaker text ts last_sent = (last_sent, None))
         /\ (suppressed now (dedupe_key speaker text) last_sent = false ->
             snd (_emit_final now speaker text ts last_sent)
             = Some (Py.strip speaker, Py.strip text, ts)
             /\ Dict.get (dedupe_key speaker text)
                         (fst (_emit_final now speaker text ts last_sent))
                = Some now))
  /\ (forall now key last_sent,
         suppressed now key last_sent = true
         <-> exists v, Dict.get key last_sent = Some v
                       /\ (now - v < DEDUP_WINDOW_SECONDS)%Q).
Proof.
  split; [|split].
  - intros last_sent speaker text ts1 ts2 t1 t2 others W Win F.
    cbv zeta.
    assert (Drop : snd (_emit_final t1 speaker text ts1 last_sent) <> None ->
                   _emit_final t2 speaker text ts2
                     (fst (emit_all others
                             (fst (_emit_final t1 speaker text ts1 last_sent))))
                   = (fst (emit_all others
                             (fst (_emit_final t1 speaker text ts1 last_sent))),
                      None)).
    { intros E.
      destruct (emit_final_records t1 speaker text ts1 last_sent W E)
        as [_ G].
      destruct (emit_all_keeps_recent t1 t2 (dedupe_key speaker text) others
                  (fst (_emit_final t1 speaker text ts1 last_sent)) Win F)
        as (v & Gv & Hv).
      { now apply wf_emit_final. }
      { exists t1. split; [assumption | lra]. }
      rewrite (emit_final_unfold t2).
      destruct (Py.is_empty (Py.strip text)); [reflexivity|].
      rewrite (proj2 (suppressed_iff t2 _ _)); [reflexivity|].
      exists v. split; [assumption | lra]. }
    split; [exact Drop|].
    destruct (snd (_emit_final t1 speaker text ts1 last_sent)) eqn:E;
      [right | now left].
    rewrite Drop by congruence. reflexivity.
  - intros now speaker text ts last_sent W T.
    apply is_empty_false in T. split; intros S.
    + rewrite emit_final_unfold, T, S. reflexivity.
    + apply emit_final_records; [assumption|].
      rewrite emit_final_unfold, T, S. simpl. discriminate.
  - apply suppressed_iff.
Qed.

(** An instance: "Hello" from Alice at t=10 and t=11, "Hi" from Bob in
    between. *)
Lemma dedup_gate_drops_repeat_witness :
  Dict.wf (@Dict.empty Q)
  /\ (11 - 10 < DEDUP_WINDOW_SECONDS)%Q
  /\ Forall (fun a => (10 <= attempt_time a)%Q /\ (attempt_time a <= 11)%Q)
            [((21 # 2)%Q, lit "Bob", lit "Hi", (21 # 2)%Q)]
  /\ snd (_emit_final 10 Alice (lit "Hello") 10 Dict.empty)
     = Some (Alice, lit "Hello", 10%Q)
  /\ _emit_final 11 Alice (lit "Hello") 11
       (fst (emit_all [((21 # 2)%Q, lit "Bob", lit "Hi", (21 # 2)%Q)]
               (fst (_emit_final 10 Alice (lit "Hello") 10 Dict.empty))))
     = ([(lit "Alice|Hello", 10%Q); (lit "Bob|Hi", (21 # 2)%Q)], None).
Proof.
  assert (W : Dict.wf (@Dict.empty Q)) by constructor.
  assert (Win : (11 - 10 < DEDUP_WINDOW_SECONDS)%Q) by reflexivity.
  assert (F : Forall (fun a => (10 <= attempt_time a)%Q
                               /\ (attempt_time a <= 11)%Q)
                     [((21 # 2)%Q, lit "Bob", lit "Hi", (21 # 2)%Q)]).
  { constructor; [|constructor]. split; vm_compute; discriminate. }
  split; [exact W|]. split; [exact Win|]. split; [exact F|].
  split; [reflexivity|].
  refine (proj1 (proj1 dedup_gate_drops_repeat Dict.empty Alice (lit "Hello")
                       10%Q 11%Q 10%Q 11%Q _ W Win F) _).
  vm_compute. discriminate.
Defined.

(** C10.  A dropped attempt leaves the key's recorded time alone: after
    an attempt emitted at [t1] and an identical one dropped at [t2],
    [LAST_SENT] still holds [t1] for the key, and a third identical
    attempt at a [t3] at least [DEDUP_WINDOW_SECONDS] after [t1] is
    emitted again. *)
Theorem dropped_attempt_keeps_timestamp
        (last_sent : Dict.t Q) (speaker text : str) (ts1 ts2 ts3 t1 t2 t3 : Q) :
  Dict.wf last_sent ->
  let first := _emit_final t1 speaker text ts1 last_sent in
  let second := _emit_final t2 speaker text ts2 (fst first) in
  let third := _emit_final t3 speaker text ts3 (fst second) in
  snd first <> None ->
  snd second = None ->
  (DEDUP_WINDOW_SECONDS <= t3 - t1)%Q ->
  fst second = fst first
  /\ Dict.get (dedupe_key speaker text) (fst second) = Some t1
  /\ snd third = Some (Py.strip speaker, Py.strip text, ts3).
Proof.
  intros W first second third E1 E2 Late.
  destruct (emit_final_records t1 speaker text ts1 last_sent W E1) as [_ G].
  assert (Same : fst second = fst first) by now apply emit_final_dropped.
  split; [exact Same|]. split; [now rewrite Same|].
  assert (T : Py.is_empty (Py.strip text) = false).
  { unfold first in E1. rewrite emit_final_unfold in E1.
    destruct (Py.is_empty (Py.strip text)); [now elim E1 | reflexivity]. }
  unfold third. rewrite emit_final_unfold, T, Same.
  destruct (suppressed t3 (dedupe_key speaker text) (fst first)) eqn:S;
    [|reflexivity].
  apply suppressed_iff in S. destruct S as (v & Gv & Hv).
  fold first in G. rewrite G in Gv. injection Gv as <-. lra.
Qed.

(** An instance: "Hello" from Alice at t=10, 11 and 12. *)
Lemma dropped_attempt_keeps_timestamp_witness :
  Dict.wf (@Dict.empty Q)
  /\ snd (_emit_final 10 Alice (lit "Hello") 10 Dict.empty) <> None
  /\ snd (_emit_final 11 Alice (lit "Hello") 11
            (fst (_emit_final 10 Alice (lit "Hello") 10 Dict.empty)))
     = None
  /\ (DEDUP_WINDOW_SECONDS <= 12 - 10)%Q
  /\ Dict.get (lit "Alice|Hello")
       (fst (_emit_final 11 Alice (lit "Hello") 11
               (fst (_emit_final 10 Alice (lit "Hello") 10 Dict.empty))))
     = Some 10%Q
  /\ snd (_emit_final 12 Alice (lit "Hello") 12
            (fst (_emit_final 11 Alice (lit "Hello") 11
                    (fst (_emit_final 10 Alice (lit "Hello") 10 Dict.empty)))))
     = Some (Alice, lit "Hello", 12%Q).
Proof.
  assert (W : Dict.wf (@Dict.empty Q)) by constructor.
  assert (E1 : snd (_emit_final 10 Alice (lit "Hello") 10 Dict.empty) <> None)
    by (vm_compute; discriminate).
  assert (E2 : snd (_emit_final 11 Alice (lit "Hello") 11
                      (fst (_emit_final 10 Alice (lit "Hello") 10 Dict.empty)))
               = None) by reflexivity.
  assert (Late : (DEDUP_WINDOW_SECONDS <= 12 - 10)%Q)
    by (vm_compute; discriminate).
  split; [exact W|]. split; [exact E1|]. split; [exact E2|].
  split; [exact Late|].
  exact (proj2 (dropped_attempt_keeps_timestamp Dict.empty Alice (lit "Hello")
                  10%Q 11%Q 12%Q 10%Q 11%Q 12%Q W E1 E2 Late)).
Defined.

(** ** The delta emitter *)

Lemma eqb_char_refl (c : ascii) : Py.eqb_char c c = true.
Proof. unfold Py.eqb_char. apply Ascii.eqb_refl. Qed.

Lemma lstrip_length (s : str) : length (Py.lstrip s) <= length s.
Proof.
  induction s as [|c s IH]; simpl; [lia|].
  destruct (Py.isspace c); simpl; lia.
Qed.

Lemma lstrip_head (s : str) :
  match Py.lstrip s with
  | [] => True
  | c :: _ => Py.isspace c = false
  end.
Proof.
  induction s as [|c s IH]; simpl; [exact I|].
  destruct (Py.isspace c) eqn:E; [exact IH | exact E].
Qed.

Lemma no_trailing_space_tail (c : ascii) (s : str) :
  no_trailing_space (c :: s) = true -> no_trailing_space s = true.
Proof. destruct s; [reflexivity | simpl; auto]. Qed.

Lemma no_trailing_space_snoc (s : str) (c : ascii) :
  no_trailing_space (s ++ [c]) = negb (Py.isspace c).
Proof.
  induction s as [|x s IH]; [reflexivity|].
  change ((x :: s) ++ [c]) with (x :: (s ++ [c])).
  destruct (s ++ [c]) eqn:E; [now destruct s | exact IH].
Qed.

Lemma strip_no_trailing_space (s : str) :
  no_trailing_space (Py.strip s) = true.
Proof.
  unfold Py.strip, Py.rstrip.
  pose proof (lstrip_head (rev (Py.lstrip s))) as H.
  destruct (Py.lstrip (rev (Py.lstrip s))) as [|c l]; [reflexivity|].
  simpl rev. rewrite no_trailing_space_snoc, H. reflexivity.
Qed.

(** Skipping the leading whitespace of a string that does not end in
    whitespace stops inside the string. *)
Lemma lstrip_inside (a s : str) :
  a <> [] ->
  no_trailing_space a = true ->
  exists x rest,
    Py.lstrip a = x :: rest
    /\ Py.lstrip (a ++ s) = x :: rest ++ s
    /\ no_trailing_space rest = true.
Proof.
  induction a as [|c a IH]; [congruence|]. intros _ N.
  simpl Py.lstrip. change ((c :: a) ++ s) with (c :: (a ++ s)).
  simpl Py.lstrip.
  destruct (Py.isspace c) eqn:E.
  - destruct a as [|c' a'].
    + simpl in N. rewrite E in N. discriminate.
    + apply IH; [discriminate | exact N].
  - exists c, a. repeat split. eapply no_trailing_space_tail, N.
Qed.

(** The loop on a snapshot that extends the previous text. *)
Lemma prefix_len_loop_extends (fuel : nat) (a s : str) (j : nat) :
  length a <= fuel ->
  no_trailing_space a = true ->
  prefix_len_loop fuel a (a ++ s) j = j + length a.
Proof.
  revert a j. induction fuel as [|fuel IH]; intros a j L N.
  - destruct a; [simpl; lia | simpl in L; lia].
  - destruct a as [|ca a']; [simpl; lia|].
    change ((ca :: a') ++ s) with (ca :: (a' ++ s)).
    cbn [prefix_len_loop].
    destruct (Py.isspace ca) eqn:E.
    + destruct (lstrip_inside (ca :: a') s) as (x & rest & L1 & L2 & N');
        [discriminate | exact N |].
      change (ca :: (a' ++ s)) with ((ca :: a') ++ s).
      rewrite L1, L2, eqb_char_refl. cbn [tl].
      pose proof (lstrip_length (ca :: a')) as Len. rewrite L1 in Len.
      rewrite IH; [|simpl in *; lia | exact N'].
      simpl in *. rewrite !length_app. simpl. lia.
    + rewrite eqb_char_refl. cbn [tl].
      rewrite IH;
        [simpl; lia | simpl in L; lia | eapply no_trailing_space_tail, N].
Qed.

Lemma prefix_len_extends (a s : str) :
  no_trailing_space a = true -> _prefix_len a (a ++ s) = length a.
Proof.
  intros N. unfold _prefix_len.
  now rewrite prefix_len_loop_extends.
Qed.

(** The loop on texts without whitespace. *)
Lemma prefix_len_loop_no_space (fuel : nat) (a b : str) (j : nat) :
  length a <= fuel ->
  no_space a = true -> no_space b = true ->
  prefix_len_loop fuel a b j = j + lcp_ci a b.
Proof.
  revert a b j. induction fuel as [|fuel IH]; intros a b j L A B.
  - destruct a; [simpl; lia | simpl in L; lia].
  - destruct a as [|ca a']; [simpl; lia|].
    destruct b as [|cb b']; [simpl; lia|].
    simpl in A, B. apply andb_true_iff in A, B.
    destruct A as [A1 A2], B as [B1 B2].
    apply negb_true_iff in A1, B1.
    cbn [prefix_len_loop lcp_ci]. rewrite A1, B1.
    destruct (Py.eqb_char (Py.lower_char ca) (Py.lower_char cb)); [|lia].
    cbn [tl]. rewrite IH; [lia | simpl in L; lia | assumption | assumption].
Qed.

(** The loop never needs more fuel than [len(a)]. *)
Lemma prefix_len_loop_fuel (fuel fuel' : nat) (a b : str) (j : nat) :
  length a <= fuel -> length a <= fuel' ->
  prefix_len_loop fuel a b j = prefix_len_loop fuel' a b j.
Proof.
  revert fuel' a b j. induction fuel as [|fuel IH]; intros fuel' a b j L L'.
  - destruct a; [|simpl in L; lia]. now destruct fuel'.
  - destruct fuel' as [|fuel'].
    + destruct a; [reflexivity | simpl in L'; lia].
    + destruct a as [|ca a']; [reflexivity|].
      destruct b as [|cb b']; [reflexivity|].
      cbn [prefix_len_loop].
      pose proof (lstrip_length (ca :: a')) as La.
      destruct (Py.isspace ca), (Py.isspace cb);
        match goal with
        | |- context [Py.eqb_char ?x ?y] => destruct (Py.eqb_char x y)
        end; try reflexivity; apply IH;
        try (destruct (Py.lstrip (ca :: a')); simpl in *; lia);
        simpl in *; lia.
Qed.

Lemma emit_periodic_body_long (now clock : Q) (speaker curr : str) (e : Emitter) :
  2 <= length (tick_delta
                 (Dict.get_default speaker [] (emitted_last_by_speaker e))
                 curr) ->
  emit_periodic_body now clock speaker curr e
  = (mkEmitter
       (curr_by_speaker e)
       (Dict.set speaker curr (emitted_last_by_speaker e))
       (fst (_emit_final clock speaker
               (tick_delta
                  (Dict.get_default speaker [] (emitted_last_by_speaker e))
                  curr)
               now (LAST_SENT e))),
     snd (_emit_final clock speaker
            (tick_delta
               (Dict.get_default speaker [] (emitted_last_by_speaker e))
               curr)
            now (LAST_SENT e))).
Proof.
  intros L. unfold emit_periodic_body.
  set (delta := tick_delta _ curr) in *.
  assert (E : negb (Py.is_empty delta) && (2 <=? length delta) = true).
  { apply andb_true_iff. split; [|now apply Nat.leb_le].
    destruct delta; [simpl in L; lia | reflexivity]. }
  rewrite E. now destruct (_emit_final clock speaker delta now (LAST_SENT e)).
Qed.

Lemma emit_periodic_body_short (now clock : Q) (speaker curr : str) (e : Emitter) :
  length (tick_delta
            (Dict.get_default speaker [] (emitted_last_by_speaker e))
            curr) < 2 ->
  emit_periodic_body now clock speaker curr e
  = (mkEmitter
       (curr_by_speaker e)
       (Dict.set speaker
          (if Py.is_empty
                (Dict.get_default speaker [] (emitted_last_by_speaker e))
           then curr
           else Dict.get_default speaker [] (emitted_last_by_speaker e))
          (emitted_last_by_speaker e))
       (LAST_SENT e),
     None).
Proof.
  intros L. unfold emit_periodic_body.
  set (delta := tick_delta _ curr) in *.
  assert (E : negb (Py.is_empty delta) && (2 <=? length delta) = false).
  { apply andb_false_iff. right. now apply Nat.leb_gt. }
  now rewrite E.
Qed.

(** C5, amended.  With a previously emitted text for the speaker, the
    tick's delta is the new snapshot from the boundary [_prefix_len]
    computes, with surrounding whitespace removed; with none it is the
    whole snapshot.  On texts without
    whitespace that boundary is the length of the longest common prefix
    compared without regard to case.  When the snapshot extends the
    previous text, itself a trimmed snapshot, the boundary is the end of
    the previous text and the delta is the trimmed rest.  A delta of two
    or more characters goes to [_emit_final] and the snapshot becomes the
    speaker's emitted text.  "The plan is" then "The plan is to ship":
    the text handed on and emitted is "to ship", not the whole
    snapshot. *)
Theorem delta_is_trimmed_suffix :
  (forall prev curr,
      prev <> [] ->
      tick_delta prev curr
      = Py.strip (Py.slice_from (_prefix_len prev curr) curr))
  /\ (forall curr, tick_delta [] curr = curr)
  /\ (forall a b,
         no_space a = true -> no_space b = true ->
         _prefix_len a b = lcp_ci a b)
  /\ (forall snapshot rest,
         Py.strip snapshot <> [] ->
         _prefix_len (Py.strip snapshot) (Py.strip snapshot ++ rest)
         = length (Py.strip snapshot)
         /\ tick_delta (Py.strip snapshot) (Py.strip snapshot ++ rest)
            = Py.strip rest)
  /\ (forall now clock speaker curr e,
         2 <= length (tick_delta
                        (Dict.get_default speaker []
                                          (emitted_last_by_speaker e))
                        curr) ->
         emit_periodic_body now clock speaker curr e
         = (mkEmitter
              (curr_by_speaker e)
              (Dict.set speaker curr (emitted_last_by_speaker e))
              (fst (_emit_final clock speaker
                      (tick_delta
                         (Dict.get_default speaker []
                                           (emitted_last_by_speaker e))
                         curr)
                      now (LAST_SENT e))),
            snd (_emit_final clock speaker
                   (tick_delta
                      (Dict.get_default speaker []
                                        (emitted_last_by_speaker e))
                      curr)
                   now (LAST_SENT e))))
  /\ tick_delta (lit "The plan is") (lit "The plan is to ship")
     = lit "to ship"
  /\ (forall now clock,
         emit_periodic_body now clock Alice (lit "The plan is to ship")
                            plan_emitter
         = (mkEmitter [(Alice, lit "The plan is to ship")]
                      [(Alice, lit "The plan is to ship")]
                      [(lit "Alice|to ship", clock)],
            Some (Alice, lit "to ship", now)))
  /\ (forall now clock,
         emit_periodic_tick now clock plan_emitter
         = (mkEmitter [(Alice, lit "The plan is to ship")]
                      [(Alice, lit "The plan is to ship")]
                      [(lit "Alice|to ship", clock Alice)],
            [(Alice, lit "to ship", now)])).
Proof.
  split; [|split; [|split; [|split; [|split; [|split; [|split]]]]]].
  - intros prev curr P. unfold tick_delta.
    now rewrite (proj2 (is_empty_false prev) P).
  - reflexivity.
  - intros a b A B. unfold _prefix_len.
    now rewrite prefix_len_loop_no_space.
  - intros snapshot rest P.
    assert (K : _prefix_len (Py.strip snapshot) (Py.strip snapshot ++ rest)
                = length (Py.strip snapshot))
      by apply prefix_len_extends, strip_no_trailing_space.
    split; [exact K|].
    unfold tick_delta. rewrite (proj2 (is_empty_false _) P), K. simpl.
    unfold Py.slice_from. now rewrite skipn_app, skipn_all, Nat.sub_diag.
  - intros now clock speaker curr e. apply emit_periodic_body_long.
  - reflexivity.
  - intros now clock. reflexivity.
  - intros now clock. reflexivity.
Qed.

(** C5 as stated fails on its own example: the delta handed on for
    "The plan is" then "The plan is to ship" is "to ship", without the
    leading blank. *)
Lemma delta_claim_counterexample :
  Dict.get_default Alice [] (emitted_last_by_speaker plan_emitter)
  = lit "The plan is"
  /\ Dict.get Alice (curr_by_speaker plan_emitter)
     = Some (lit "The plan is to ship")
  /\ snd (emit_periodic_body 4 4 Alice (lit "The plan is to ship")
                             plan_emitter)
     = Some (Alice, lit "to ship", 4%Q)
  /\ snd (emit_periodic_tick 4 (fun _ => 4%Q) plan_emitter)
     = [(Alice, lit "to ship", 4%Q)]
  /\ lit "to ship" <> lit " to ship".
Proof. repeat split. discriminate. Qed.

(** Instances: the plan example, "Plan" against "plans", and a snapshot
    stored with blanks around it. *)
Lemma delta_is_trimmed_suffix_witness :
  lit "The plan is" <> []
  /\ Py.strip (lit " The plan is ") <> []
  /\ no_space (lit "Plan") = true
  /\ no_space (lit "plans") = true
  /\ tick_delta (lit "The plan is") (lit "The plan is to ship")
     = Py.strip (Py.slice_from 11 (lit "The plan is to ship"))
  /\ _prefix_len (lit "Plan") (lit "plans") = 4
  /\ tick_delta (Py.strip (lit " The plan is "))
                (Py.strip (lit " The plan is ") ++ lit " to ship")
     = lit "to ship".
Proof.
  assert (P : lit "The plan is" <> []) by discriminate.
  assert (S : Py.strip (lit " The plan is ") <> []) by discriminate.
  split; [exact P|]. split; [exact S|].
  split; [reflexivity|]. split; [reflexivity|]. split; [|split].
  - exact (proj1 delta_is_trimmed_suffix (lit "The plan is")
                 (lit "The plan is to ship") P).
  - exact (proj1 (proj2 (proj2 delta_is_trimmed_suffix))
                 (lit "Plan") (lit "plans") eq_refl eq_refl).
  - exact (proj2 (proj1 (proj2 (proj2 (proj2 delta_is_trimmed_suffix)))
                        (lit " The plan is ") (lit " to ship") S)).
Defined.

(** The comparison after a whitespace run: the character that follows
    the run is stepped over without being compared. *)
Example prefix_len_after_space :
  _prefix_len (lit "a b") (lit "a cd") = 3
  /\ tick_delta (lit "a b") (lit "a cd") = lit "d".
Proof. split; reflexivity. Qed.

(** C7, amended.  On a tick where the speaker's delta has fewer than two
    characters nothing is emitted and [LAST_SENT] is untouched; the
    speaker's emitted text stays the previous one when there is one, and
    becomes the snapshot only when there was none.  The next delta is
    therefore computed against the previous emitted text. *)
Theorem short_delta_keeps_emitted_text
        (now clock : Q) (speaker curr : str) (e : Emitter) :
  length (tick_delta
            (Dict.get_default speaker [] (emitted_last_by_speaker e))
            curr) < 2 ->
  emit_periodic_body now clock speaker curr e
  = (mkEmitter
       (curr_by_speaker e)
       (Dict.set speaker
          (if Py.is_empty
                (Dict.get_default speaker [] (emitted_last_by_speaker e))
           then curr
           else Dict.get_default speaker [] (emitted_last_by_speaker e))
          (emitted_last_by_speaker e))
       (LAST_SENT e),
     None)
  /\ Dict.get_default
       speaker []
       (emitted_last_by_speaker
          (fst (emit_periodic_body now clock speaker curr e)))
     = (if Py.is_empty
             (Dict.get_default speaker [] (emitted_last_by_speaker e))
        then curr
        else Dict.get_default speaker [] (emitted_last_by_speaker e)).
Proof.
  intros L. rewrite emit_periodic_body_short by exact L.
  split; [reflexivity|]. simpl. unfold Dict.get_default at 1.
  now rewrite get_set_same.
Qed.

(** C7 as stated fails: with "Hello" emitted and the caption now reading
    "Hello!", the delta "!" is too short, nothing is emitted, and the
    speaker's emitted text is still "Hello", not the latest "Hello!". *)
Lemma short_delta_claim_counterexample :
  tick_delta (lit "Hello") (lit "Hello!") = lit "!"
  /\ emit_periodic_body 4 4 Alice (lit "Hello!") hello_emitter
     = (mkEmitter [(Alice, lit "Hello!")] [(Alice, lit "Hello")] [], None)
  /\ emit_periodic_tick 4 (fun _ => 4%Q) hello_emitter
     = (mkEmitter [(Alice, lit "Hello!")] [(Alice, lit "Hello")] [], [])
  /\ Dict.get Alice
       (emitted_last_by_speaker
          (fst (emit_periodic_tick 4 (fun _ => 4%Q) hello_emitter)))
     = Some (lit "Hello")
  /\ lit "Hello" <> lit "Hello!".
Proof. repeat split. discriminate. Qed.

(** An instance: "Hello" emitted, "Hello!" observed. *)
Lemma short_delta_keeps_emitted_text_witness :
  length (tick_delta
            (Dict.get_default Alice [] (emitted_last_by_speaker hello_emitter))
            (lit "Hello!")) < 2
  /\ emit_periodic_body 4 4 Alice (lit "Hello!") hello_emitter
     = (mkEmitter [(Alice, lit "Hello!")] [(Alice, lit "Hello")] [], None).
Proof.
  assert (L : length (tick_delta
                        (Dict.get_default Alice []
                           (emitted_last_by_speaker hello_emitter))
                        (lit "Hello!")) < 2) by (vm_compute; lia).
  split; [exact L|].
  exact (proj1 (short_delta_keeps_emitted_text 4%Q 4%Q Alice (lit "Hello!")
                                               hello_emitter L)).
Defined.

(** ** The fuel of the [difflib] model

    [Difflib.matches] recurses on strictly shorter slices of [a], so any
    fuel above [len(a)] gives the same sum. *)

Lemma row_scan_bound (pop : ascii -> bool) (ai : ascii) (i : nat) (b : str) :
  forall prev j best,
    Forall (fun k => k <= i) prev ->
    within (S i) best ->
    Forall (fun k => k <= S i) (fst (Difflib.row_scan pop ai i b prev j best))
    /\ within (S i) (snd (Difflib.row_scan pop ai i b prev j best)).
Proof.
  induction b as [|bj b IH]; intros prev j [[bi bj'] bk] P B.
  - simpl. split; [constructor | exact B].
  - cbn [Difflib.row_scan].
    set (before := match prev with [] => 0 | k :: _ => k end).
    assert (Hb : before <= i).
    { unfold before. destruct prev; [lia|]. now inversion P. }
    set (k := if Py.eqb_char ai bj && negb (pop bj) then S before else 0).
    assert (Hk : k <= S i) by (unfold k; destruct (_ && _); lia).
    set (best' := if (0 <? k) && (bk <? k) then (S i - k, S j - k, k)
                  else (bi, bj', bk)).
    assert (B' : within (S i) best').
    { unfold best'.
      destruct ((0 <? k) && (bk <? k)); [cbv [within]; lia | exact B]. }
    assert (P' : Forall (fun k => k <= i) (tl prev)).
    { destruct prev; [constructor|]. now inversion P. }
    specialize (IH (tl prev) (S j) best' P' B').
    destruct (Difflib.row_scan pop ai i b (tl prev) (S j) best')
      as [row final]. simpl in *.
    destruct IH as [R F]. split; [constructor; assumption | assumption].
Qed.

Lemma rows_bound (pop : ascii -> bool) (b : str) (a : str) :
  forall i j2len best,
    Forall (fun k => k <= i) j2len ->
    within i best ->
    within (i + length a) (Difflib.rows pop a i b j2len best).
Proof.
  induction a as [|ai a IH]; intros i j2len best P B.
  - simpl. destruct best as [[bi bj] bk]. simpl in *. lia.
  - cbn [Difflib.rows].
    assert (P0 : Forall (fun k => k <= i) (0 :: j2len))
      by (constructor; [lia | assumption]).
    assert (B0 : within (S i) best)
      by (destruct best as [[bi bj] bk]; simpl in *; lia).
    destruct (row_scan_bound pop ai i b (0 :: j2len) 0 best P0 B0) as [R F].
    destruct (Difflib.row_scan pop ai i b (0 :: j2len) 0 best)
      as [row best']. simpl in R, F.
    specialize (IH (S i) row best' R F).
    simpl length. now replace (i + S (length a)) with (S i + length a) by lia.
Qed.

Lemma extend_back_within (a b : str) (n : nat) :
  forall i j k,
    within n (i, j, k) -> within n (Difflib.extend_back a b i j k).
Proof.
  induction i as [|i IH]; intros j k W; [exact W|].
  destruct j as [|j]; [exact W|]. cbn [Difflib.extend_back].
  destruct (nth_error a i); [|exact W].
  destruct (nth_error b j); [|exact W].
  destruct (Py.eqb_char a0 a1); [|exact W].
  apply IH. simpl in *. lia.
Qed.

Lemma extend_forward_within (a b : str) (fuel : nat) :
  forall i j k,
    within (length a) (i, j, k) ->
    within (length a) (Difflib.extend_forward fuel a b i j k).
Proof.
  induction fuel as [|fuel IH]; intros i j k W; [exact W|].
  cbn [Difflib.extend_forward].
  destruct (nth_error a (i + k)) eqn:E; [|exact W].
  destruct (nth_error b (j + k)); [|exact W].
  destruct (Py.eqb_char a0 a1); [|exact W].
  apply IH. simpl.
  assert (i + k < length a) by (apply nth_error_Some; congruence). lia.
Qed.

Lemma find_longest_match_within (pop : ascii -> bool) (a b : str) :
  within (length a) (Difflib.find_longest_match pop a b).
Proof.
  unfold Difflib.find_longest_match.
  pose proof (rows_bound pop b a 0 [] (0, 0, 0)) as R.
  destruct (Difflib.rows pop a 0 b [] (0, 0, 0)) as [[i j] k].
  pose proof (extend_back_within a b (length a) i j k) as B.
  destruct (Difflib.extend_back a b i j k) as [[i1 j1] k1].
  apply extend_forward_within, B, R; [constructor | simpl; lia].
Qed.

Lemma matches_fuel (pop : ascii -> bool) (fuel : nat) :
  forall fuel' a b,
    length a < fuel -> length a < fuel' ->
    Difflib.matches fuel pop a b = Difflib.matches fuel' pop a b.
Proof.
  induction fuel as [|fuel IH]; intros fuel' a b L L'; [lia|].
  destruct fuel' as [|fuel']; [lia|].
  cbn [Difflib.matches].
  pose proof (find_longest_match_within pop a b) as W.
  destruct (Difflib.find_longest_match pop a b) as [[i j] k].
  simpl in W.
  destruct (k =? 0) eqn:K; [reflexivity|].
  apply Nat.eqb_neq in K.
  rewrite (IH fuel' (firstn i a) (firstn j b)),
          (IH fuel' (skipn (i + k) a) (skipn (j + k) b));
    try reflexivity;
    rewrite ?length_firstn, ?length_skipn; lia.
Qed.

(** * Further properties of the code *)

(** ** Characters and trimming *)

Lemma alnum_not_space (c : ascii) :
  Py.isalnum c = true -> Py.isspace c = false.
Proof. destruct c as [[] [] [] [] [] [] [] []]; vm_compute; congruence. Qed.

Lemma lower_char_idem (c : ascii) :
  Py.lower_char (Py.lower_char c) = Py.lower_char c.
Proof. destruct c as [[] [] [] [] [] [] [] []]; reflexivity. Qed.

Lemma isspace_lower_char (c : ascii) :
  Py.isspace (Py.lower_char c) = Py.isspace c.
Proof. destruct c as [[] [] [] [] [] [] [] []]; reflexivity. Qed.

Lemma eqb_char_eq (a b : ascii) : Py.eqb_char a b = true <-> a = b.
Proof. unfold Py.eqb_char. apply Ascii.eqb_eq. Qed.

Lemma lstrip_fixed (s : str) :
  match s with [] => True | c :: _ => Py.isspace c = false end ->
  Py.lstrip s = s.
Proof. destruct s as [|c s]; [reflexivity|]. simpl. now intros ->. Qed.

Lemma lstrip_idem (s : str) : Py.lstrip (Py.lstrip s) = Py.lstrip s.
Proof. apply lstrip_fixed, lstrip_head. Qed.

Lemma lstrip_snoc (l : str) (c : ascii) :
  Py.lstrip (l ++ [c])
  = match Py.lstrip l with
    | [] => if Py.isspace c then [] else [c]
    | _ :: _ => Py.lstrip l ++ [c]
    end.
Proof.
  induction l as [|x l IH]; simpl.
  - reflexivity.
  - destruct (Py.isspace x); [exact IH | reflexivity].
Qed.

(** [rstrip] from the front: a character goes when it is whitespace and
    nothing is left behind it. *)
Lemma rstrip_cons (c : ascii) (s : str) :
  Py.rstrip (c :: s)
  = if Py.isspace c && Py.is_empty (Py.rstrip s) then []
    else c :: Py.rstrip s.
Proof.
  unfold Py.rstrip. simpl rev. rewrite lstrip_snoc.
  destruct (Py.lstrip (rev s)) as [|x l] eqn:E.
  - simpl. rewrite andb_true_r. now destruct (Py.isspace c).
  - rewrite rev_app_distr. simpl rev at 1. cbn [app].
    destruct (rev (x :: l)) eqn:R.
    + apply (f_equal (@length ascii)) in R. rewrite length_rev in R.
      discriminate.
    + simpl. now rewrite andb_false_r.
Qed.

Lemma lstrip_rstrip (s : str) :
  Py.lstrip (Py.rstrip s) = Py.rstrip (Py.lstrip s).
Proof.
  induction s as [|c s IH]; [reflexivity|].
  rewrite rstrip_cons. simpl Py.lstrip at 2.
  destruct (Py.isspace c) eqn:E; simpl andb.
  - destruct (Py.is_empty (Py.rstrip s)) eqn:R.
    + apply is_empty_true in R. rewrite <- IH, R. reflexivity.
    + simpl. now rewrite E.
  - simpl. rewrite E. now rewrite rstrip_cons, E.
Qed.

Lemma rstrip_idem (s : str) : Py.rstrip (Py.rstrip s) = Py.rstrip s.
Proof.
  unfold Py.rstrip. now rewrite rev_involutive, lstrip_idem.
Qed.

Lemma strip_idem (s : str) : Py.strip (Py.strip s) = Py.strip s.
Proof.
  unfold Py.strip.
  now rewrite lstrip_rstrip, lstrip_idem, rstrip_idem.
Qed.

Lemma rstrip_fixed (s : str) :
  no_trailing_space s = true -> Py.rstrip s = s.
Proof.
  induction s as [|c s IH]; [reflexivity|]. intros N.
  rewrite rstrip_cons. destruct s as [|c' s'].
  - simpl in N. apply negb_true_iff in N. now rewrite N.
  - rewrite IH by exact N. simpl. now rewrite andb_false_r.
Qed.

Lemma strip_head (s : str) :
  match Py.strip s with [] => True | c :: _ => Py.isspace c = false end.
Proof.
  unfold Py.strip. rewrite <- lstrip_rstrip. apply lstrip_head.
Qed.

Lemma strip_fixed (s : str) :
  match s with [] => True | c :: _ => Py.isspace c = false end ->
  no_trailing_space s = true ->
  Py.strip s = s.
Proof.
  intros H N. unfold Py.strip. rewrite lstrip_fixed by exact H.
  now apply rstrip_fixed.
Qed.

(** A text that starts with a character other than whitespace is not
    blank. *)
Lemma strip_nonempty (c : ascii) (s : str) :
  Py.isspace c = false -> Py.strip (c :: s) <> [].
Proof.
  intros E. unfold Py.strip. simpl Py.lstrip. rewrite E, rstrip_cons, E.
  simpl. discriminate.
Qed.

(** ** The normalizer *)

Lemma collapsed_weaken (w : str) :
  collapsed true w = true -> collapsed false w = true.
Proof.
  destruct w as [|c w]; [reflexivity|]. simpl.
  destruct (Py.isalnum c); [trivial|].
  rewrite andb_false_r. discriminate.
Qed.

Lemma norm_loop_collapsed (s : str) :
  forall last_space,
    Forall (fun c => Py.lower_char c = c) s ->
    collapsed last_space (norm_loop s last_space) = true.
Proof.
  induction s as [|ch s IH]; intros ls F; [reflexivity|].
  inversion F as [|? ? Hc F']; subst. cbn [norm_loop].
  destruct (Py.isalnum ch) eqn:A.
  - cbn [collapsed]. rewrite A, Hc, eqb_char_refl. now apply IH.
  - destruct ls; cbn [negb].
    + now apply IH.
    + cbn [collapsed]. change (Py.isalnum Py.space) with false. cbn iota.
      rewrite eqb_char_refl. now apply IH.
Qed.

Lemma norm_loop_fixed (w : str) :
  forall last_space,
    collapsed last_space w = true -> norm_loop w last_space = w.
Proof.
  induction w as [|c w IH]; intros ls C; [reflexivity|].
  simpl in *. destruct (Py.isalnum c).
  - apply andb_true_iff in C. destruct C as [_ C]. now rewrite IH.
  - apply andb_true_iff in C. destruct C as [C C'].
    apply andb_true_iff in C. destruct C as [E L].
    apply eqb_char_eq in E. subst c. rewrite L. now rewrite IH.
Qed.

Lemma collapsed_lower (w : str) :
  forall last_space, collapsed last_space w = true -> Py.lower w = w.
Proof.
  induction w as [|c w IH]; intros ls C; [reflexivity|].
  simpl in *. destruct (Py.isalnum c).
  - apply andb_true_iff in C. destruct C as [E C].
    apply eqb_char_eq in E. rewrite E. f_equal. eapply IH, C.
  - apply andb_true_iff in C. destruct C as [C C'].
    apply andb_true_iff in C. destruct C as [E _].
    apply eqb_char_eq in E. subst c. f_equal. eapply IH, C'.
Qed.

Lemma collapsed_head (w : str) :
  collapsed true w = true ->
  match w with [] => True | c :: _ => Py.isspace c = false end.
Proof.
  destruct w as [|c w]; [trivial|]. simpl.
  destruct (Py.isalnum c) eqn:A; [intros _; now apply alnum_not_space|].
  rewrite andb_false_r. discriminate.
Qed.

Lemma collapsed_lstrip (w : str) :
  forall last_space,
    collapsed last_space w = true -> collapsed true (Py.lstrip w) = true.
Proof.
  induction w as [|c w IH]; intros ls C; [reflexivity|].
  simpl in *. destruct (Py.isalnum c) eqn:A.
  - rewrite (alnum_not_space c A). simpl. now rewrite A.
  - apply andb_true_iff in C. destruct C as [C C'].
    apply andb_true_iff in C. destruct C as [E _].
    apply eqb_char_eq in E. subst c.
    change (Py.isspace Py.space) with true. cbn iota. eapply IH, C'.
Qed.

Lemma collapsed_rstrip (w : str) :
  forall last_space,
    collapsed last_space w = true ->
    collapsed last_space (Py.rstrip w) = true.
Proof.
  induction w as [|c w IH]; intros ls C; [reflexivity|].
  rewrite rstrip_cons.
  destruct (Py.isspace c && Py.is_empty (Py.rstrip w)); [reflexivity|].
  simpl in *. destruct (Py.isalnum c).
  - apply andb_true_iff in C. destruct C as [E C].
    rewrite E. simpl. now apply IH.
  - apply andb_true_iff in C. destruct C as [C C'].
    rewrite C. simpl. now apply IH.
Qed.

Lemma lower_fixed_all (s : str) :
  Forall (fun c => Py.lower_char c = c) (Py.lower s).
Proof.
  unfold Py.lower. induction s as [|c s IH]; simpl; constructor;
    [apply lower_char_idem | exact IH].
Qed.

Lemma norm_is_normal (s : str) : normal_form (_norm s) = true.
Proof.
  unfold normal_form, _norm. apply andb_true_iff. split.
  - unfold Py.strip. apply collapsed_rstrip.
    eapply collapsed_lstrip, norm_loop_collapsed, lower_fixed_all.
  - apply strip_no_trailing_space.
Qed.

Lemma collapsed_chars (w : str) :
  forall last_space,
    collapsed last_space w = true ->
    Forall (fun c => (Py.isalnum c = true /\ Py.lower_char c = c)
                     \/ c = Py.space) w.
Proof.
  induction w as [|c w IH]; intros ls C; [constructor|].
  simpl in C. destruct (Py.isalnum c) eqn:A.
  - apply andb_true_iff in C. destruct C as [E C].
    apply eqb_char_eq in E. constructor; [now left | eapply IH, C].
  - apply andb_true_iff in C. destruct C as [C C'].
    apply andb_true_iff in C. destruct C as [E _].
    apply eqb_char_eq in E. constructor; [now right | eapply IH, C'].
Qed.

Lemma collapsed_no_double_space (a b : str) :
  forall last_space,
    collapsed last_space (a ++ Py.space :: Py.space :: b) = false.
Proof.
  induction a as [|c a IH]; intros ls.
  - cbn [app collapsed]. change (Py.isalnum Py.space) with false. cbn iota.
    cbn [negb]. now rewrite !andb_false_r.
  - cbn [app collapsed]. rewrite !IH.
    destruct (Py.isalnum c); now rewrite !andb_false_r.
Qed.

(** X1.  Whatever the input, [_norm] returns a text made only of
    lower-case letters, digits and blanks, with no whitespace at either
    end and no two blanks in a row. *)
Theorem norm_shape (s : str) :
  Forall (fun c => (Py.isalnum c = true /\ Py.lower_char c = c)
                   \/ c = Py.space) (_norm s)
  /\ Py.strip (_norm s) = _norm s
  /\ (forall a b, _norm s <> a ++ Py.space :: Py.space :: b).
Proof.
  pose proof (norm_is_normal s) as N. unfold normal_form in N.
  apply andb_true_iff in N. destruct N as [C _].
  split; [eapply collapsed_chars, C|]. split.
  - unfold _norm. apply strip_idem.
  - intros a b E. rewrite E, collapsed_no_double_space in C. discriminate.
Qed.

Lemma norm_fixed (w : str) : normal_form w = true -> _norm w = w.
Proof.
  unfold normal_form. intros H. apply andb_true_iff in H.
  destruct H as [C N]. unfold _norm.
  rewrite (collapsed_lower w true C).
  rewrite (norm_loop_fixed w false (collapsed_weaken w C)).
  apply strip_fixed; [now apply collapsed_head | exact N].
Qed.

(** X2.  [_norm] is idempotent, and the texts it leaves unchanged are
    exactly those in normal form. *)
Theorem norm_idempotent :
  (forall s, _norm (_norm s) = _norm s)
  /\ (forall w, _norm w = w <-> normal_form w = true).
Proof.
  split.
  - intros s. apply norm_fixed, norm_is_normal.
  - intros w. split; [|apply norm_fixed].
    intros E. rewrite <- E. apply norm_is_normal.
Qed.

(** ** The merge judge on revisions *)

Lemma startswith_app (p x : str) : Py.startswith (p ++ x) p = true.
Proof.
  induction p as [|c p IH]; [now destruct x|]. simpl.
  now rewrite eqb_char_refl, IH.
Qed.

Lemma startswith_refl (s : str) : Py.startswith s s = true.
Proof. rewrite <- (app_nil_r s) at 1. apply startswith_app. Qed.

(** X3.  Whatever the similarity ratio says, a fragment merges with
    itself, with every text that extends it, and with every text it
    extends unless that text is empty while the fragment is not. *)
Theorem should_merge_growth (ratio : str -> str -> option Q) :
  (forall s, _should_merge ratio s s = true)
  /\ (forall prev more, _should_merge ratio prev (prev ++ more) = true)
  /\ (forall curr more,
         curr <> [] -> _should_merge ratio (curr ++ more) curr = true)
  /\ (forall prev, prev <> [] -> _should_merge ratio prev [] = false).
Proof.
  assert (G : forall prev more, _should_merge ratio prev (prev ++ more) = true).
  { intros prev more. unfold _should_merge.
    destruct prev as [|c prev]; [reflexivity|].
    rewrite startswith_app. reflexivity. }
  split; [|split; [exact G|split]].
  - intros s. rewrite <- (app_nil_r s) at 2. apply G.
  - intros curr more C. unfold _should_merge.
    destruct (Py.is_empty (curr ++ more)); [reflexivity|].
    rewrite (proj2 (is_empty_false curr) C), startswith_app.
    now rewrite orb_true_r.
  - intros prev P. unfold _should_merge.
    now rewrite (proj2 (is_empty_false prev) P).
Qed.

(** X4.  Whatever the similarity ratio says, a text that is not empty
    merges with every fragment whose normal form ([_norm]) equals its
    own. *)
Theorem should_merge_same_normal_form
        (ratio : str -> str -> option Q) (prev curr : str) :
  curr <> [] ->
  _norm prev = _norm curr ->
  _should_merge ratio prev curr = true.
Proof.
  intros C E. unfold _should_merge.
  destruct (Py.is_empty prev); [reflexivity|].
  rewrite (proj2 (is_empty_false curr) C).
  destruct (Py.startswith curr prev || Py.startswith prev curr);
    [reflexivity|].
  cbv zeta. rewrite E.
  destruct (Py.is_empty (_norm curr) || Py.is_empty (_norm curr));
    [reflexivity|].
  now rewrite startswith_refl.
Qed.

(** "Hello, World!" and "hello world" share a normal form. *)
Lemma should_merge_same_normal_form_witness :
  lit "hello world" <> []
  /\ _norm (lit "Hello, World!") = _norm (lit "hello world")
  /\ _should_merge Difflib.ratio (lit "Hello, World!") (lit "hello world")
     = true.
Proof.
  assert (C : lit "hello world" <> []) by discriminate.
  assert (E : _norm (lit "Hello, World!") = _norm (lit "hello world"))
    by reflexivity.
  split; [exact C|]. split; [exact E|].
  exact (should_merge_same_normal_form Difflib.ratio _ _ C E).
Defined.

(** "Hello" extended and cut back. *)
Lemma should_merge_growth_witness :
  lit "Hello" <> []
  /\ _should_merge Difflib.ratio (lit "Hello" ++ lit " world") (lit "Hello")
     = true
  /\ _should_merge Difflib.ratio (lit "Hello") [] = false.
Proof.
  assert (C : lit "Hello" <> []) by discriminate.
  split; [exact C|]. split.
  - exact (proj1 (proj2 (proj2 (should_merge_growth Difflib.ratio)))
                 (lit "Hello") (lit " world") C).
  - exact (proj2 (proj2 (proj2 (should_merge_growth Difflib.ratio)))
                 (lit "Hello") C).
Defined.

(** ** The materialized text of a draft *)

Lemma segment_text_strip (seg : Segment) :
  Py.strip (_segment_text seg) = _segment_text seg.
Proof.
  unfold _segment_text.
  destruct (negb (Py.is_empty (Py.strip (combined seg)))
            && negb (Py.is_empty (Py.strip (frag seg))));
    apply strip_idem.
Qed.

(** X5.  The text [_segment_text] returns has no whitespace at either
    end, and it is empty exactly when the committed part and the fragment
    are both blank. *)
Theorem segment_text_trimmed (seg : Segment) :
  Py.strip (_segment_text seg) = _segment_text seg
  /\ (_segment_text seg = []
      <-> Py.strip (combined seg) = [] /\ Py.strip (frag seg) = []).
Proof.
  unfold _segment_text.
  pose proof (strip_head (combined seg)) as Hc.
  destruct (Py.strip (combined seg)) as [|c cs] eqn:C; simpl.
  - rewrite !strip_idem. split; [reflexivity|]. tauto.
  - destruct (Py.strip (frag seg)) as [|f fs] eqn:F; simpl.
    + rewrite <- C, !strip_idem. split; [reflexivity|].
      rewrite C. split; [discriminate | intros [? _]; discriminate].
    + rewrite strip_idem. split; [reflexivity|].
      split; [|intros [? _]; discriminate].
      intros E. exfalso. revert E.
      change ((c :: cs) ++ lit " " ++ f :: fs)
        with (c :: (cs ++ lit " " ++ f :: fs)).
      now apply strip_nonempty.
Qed.

(** ** More on the draft state machine *)

(** The committed part after a fold is the old materialized text. *)
Lemma fold_fragment_combined (speaker text : str) (now : Q) (seg : Segment)
      (st : State) :
  exists seg',
    _segments (fold_fragment speaker text now seg st)
    = Dict.set speaker seg' (_segments st)
    /\ Py.strip (combined seg') = _segment_text seg
    /\ frag seg' = text
    /\ started_at seg' = started_at seg
    /\ updated_at seg' = now.
Proof.
  unfold fold_fragment. eexists. split; [reflexivity|].
  cbn [combined frag started_at updated_at].
  split; [|repeat split]. unfold _segment_text.
  destruct (Py.strip (frag seg)) as [|f fs] eqn:F; cbn [Py.is_empty negb].
  - rewrite andb_false_r.
    destruct (Py.strip (combined seg)) eqn:C; cbn [Py.is_empty negb].
    + reflexivity.
    + now rewrite <- C, strip_idem.
  - destruct (Py.strip (combined seg)) eqn:C; cbn [Py.is_empty negb andb].
    + now rewrite <- F, !strip_idem.
    + now rewrite strip_idem.
Qed.

Lemma segment_text_parts (a b : Segment) :
  Py.strip (combined a) = Py.strip (combined b) ->
  Py.strip (frag a) = Py.strip (frag b) ->
  _segment_text a = _segment_text b.
Proof. unfold _segment_text. now intros -> ->. Qed.

(** X6.  In grouped mode, a text that is not a revision and arrives
    within the force-split gap, the revision window and the merge gap is
    folded in: nothing is queued, the draft keeps its start, and its
    materialized text becomes the old materialized text followed by the
    new fragment. *)
Theorem grouped_fold_keeps_text
        (ratio : str -> str -> option Q) (cfg : Config) (now : Q)
        (speaker text : str) (ts : Q) (st : State) (seg : Segment) :
  merge_consecutive cfg = true ->
  text <> [] ->
  Dict.get speaker (_segments st) = Some seg ->
  (now - updated_at seg <= force_split_gap_seconds cfg)%Q ->
  (now - updated_at seg <= revision_window_seconds cfg)%Q ->
  (now - updated_at seg <= merge_gap_seconds cfg)%Q ->
  _should_merge ratio (frag seg) text = false ->
  exists seg',
    Dict.get speaker (_segments (update ratio cfg now speaker text ts st))
    = Some seg'
    /\ _completed (update ratio cfg now speaker text ts st) = _completed st
    /\ started_at seg' = started_at seg
    /\ updated_at seg' = now
    /\ _segment_text seg'
       = _segment_text
           (mkSegment (_segment_text seg) text (started_at seg) now).
Proof.
  intros M T G F R P N. unfold update.
  rewrite (proj2 (is_empty_false text) T), G.
  rewrite (proj2 (Qgtb_false _ _) F), (proj2 (Qleb_true _ _) R), N.
  rewrite (proj2 (Qgtb_false _ _) R), M, (proj2 (Qgtb_false _ _) P).
  cbn [andb negb].
  destruct (fold_fragment_combined speaker text now seg st)
    as (seg' & E & C & Fr & S & U).
  exists seg'. rewrite E. split; [apply get_set_same|].
  split; [reflexivity|]. split; [exact S|]. split; [exact U|].
  apply segment_text_parts; cbn [combined frag].
  - rewrite C. symmetry. apply segment_text_strip.
  - now rewrite Fr.
Qed.

Lemma in_set_cases {V : Type} (k s : str) (v x : V) (d : Dict.t V) :
  Dict.wf d ->
  In (k, v) (Dict.set s x d) ->
  (k = s /\ v = x) \/ (k <> s /\ Dict.get k d = Some v).
Proof.
  intros W I. apply (in_get_some _ _ _ (wf_set s x d W)) in I.
  destruct (str_eqb k s) eqn:E.
  - apply str_eqb_eq in E. subst k. rewrite get_set_same in I.
    injection I as <-. now left.
  - apply str_eqb_neq in E. rewrite get_set_other in I by congruence.
    now right.
Qed.

(** X7.  In incremental mode the same event overwrites the fragment: the
    draft keeps its start and committed part and nothing is queued, so
    the old fragment is lost: whatever a later flush emits is a line that
    was queued before, the draft of another speaker, or the line of the
    new fragment. *)
Theorem incremental_overwrite_drops_fragment
        (ratio : str -> str -> option Q) (cfg : Config) (now : Q)
        (speaker text : str) (ts : Q) (st : State) (seg : Segment) :
  Dict.wf (_segments st) ->
  merge_consecutive cfg = false ->
  text <> [] ->
  Dict.get speaker (_segments st) = Some seg ->
  (now - updated_at seg <= force_split_gap_seconds cfg)%Q ->
  (now - updated_at seg <= revision_window_seconds cfg)%Q ->
  _should_merge ratio (frag seg) text = false ->
  update ratio cfg now speaker text ts st
  = mkState
      (Dict.set speaker (mkSegment (combined seg) text (started_at seg) now)
                (_segments st))
      (_completed st)
  /\ forall tick l,
      In l (fst (flush_ready cfg tick
                             (update ratio cfg now speaker text ts st))) ->
      In l (_completed st)
      \/ (exists other draft,
             other <> speaker
             /\ Dict.get other (_segments st) = Some draft
             /\ l = line_of (other, draft))
      \/ l = (speaker,
              _segment_text
                (mkSegment (combined seg) text (started_at seg) now),
              now).
Proof.
  intros W M T G F R N.
  assert (U : update ratio cfg now speaker text ts st
              = mkState
                  (Dict.set speaker
                     (mkSegment (combined seg) text (started_at seg) now)
                     (_segments st))
                  (_completed st)).
  { unfold update.
    rewrite (proj2 (is_empty_false text) T), G.
    rewrite (proj2 (Qgtb_false _ _) F), (proj2 (Qleb_true _ _) R), N.
    rewrite (proj2 (Qgtb_false _ _) R), M. reflexivity. }
  split; [exact U|]. intros tick l. rewrite U.
  rewrite flush_ready_partition by (now apply wf_set).
  cbn [fst _segments _completed]. intros I.
  apply in_app_or in I. destruct I as [I|I].
  - left. apply filter_In in I. tauto.
  - right. apply in_map_iff in I. destruct I as ([k v] & <- & I).
    apply filter_In in I. destruct I as [I _].
    destruct (in_set_cases _ _ _ _ _ W I) as [[-> ->]|[Nk Gk]].
    + now right.
    + left. now exists k, v.
Qed.

(** X8.  An update for one speaker leaves every other speaker's draft as
    it is, and whatever it queues is a line of the updated speaker. *)
Theorem update_speaker_isolation
        (ratio : str -> str -> option Q) (cfg : Config) (now : Q)
        (speaker text : str) (ts : Q) (st : State) :
  (forall other,
      other <> speaker ->
      Dict.get other (_segments (update ratio cfg now speaker text ts st))
      = Dict.get other (_segments st))
  /\ exists added,
      _completed (update ratio cfg now speaker text ts st)
      = _completed st ++ added
      /\ Forall (fun l => line_speaker l = speaker) added.
Proof.
  split.
  - intros other N.
    unfold update, split, revise, fold_fragment.
    destruct (Py.is_empty text); [reflexivity|].
    destruct (Dict.get speaker (_segments st)); case_conditions; simpl;
      apply get_set_other; congruence.
  - destruct (update_queue ratio cfg now speaker text ts st)
      as [E|(seg & _ & _ & E)].
    + exists []. rewrite E, app_nil_r. split; [reflexivity | constructor].
    + eexists. split; [exact E|]. constructor; [reflexivity | constructor].
Qed.

(** ** More on the idle flush *)

Lemma filter_neg_then (A : Type) (P : A -> bool) (l : list A) :
  filter P (filter (fun x => negb (P x)) l) = [].
Proof.
  induction l as [|x l IH]; [reflexivity|]. simpl.
  destruct (P x) eqn:E; simpl; [exact IH|]. now rewrite E.
Qed.

Lemma filter_twice (A : Type) (P : A -> bool) (l : list A) :
  filter P (filter P l) = filter P l.
Proof.
  induction l as [|x l IH]; [reflexivity|]. simpl.
  destruct (P x) eqn:E; simpl; [rewrite E|]; now rewrite IH.
Qed.

Lemma filter_split_perm (A : Type) (P : A -> bool) (l : list A) :
  Permutation l (filter P l ++ filter (fun x => negb (P x)) l).
Proof.
  induction l as [|x l IH]; [constructor|]. simpl.
  destruct (P x); simpl.
  - now constructor.
  - now apply Permutation_cons_app.
Qed.

(** X9.  A second flush at the same clock reading emits nothing and
    leaves the state as the first flush left it. *)
Theorem flush_ready_twice (cfg : Config) (now : Q) (st : State) :
  Dict.wf (_segments st) ->
  flush_ready cfg now (snd (flush_ready cfg now st))
  = ([], snd (flush_ready cfg now st)).
Proof.
  intros W. rewrite (flush_ready_partition cfg now st W). cbn [snd].
  rewrite flush_ready_partition by (now apply wf_filter).
  cbn [_segments _completed].
  rewrite (filter_neg_then _ (due cfg now)), (filter_neg_then _ (ready cfg now)).
  now rewrite !filter_twice.
Qed.

(** X10.  A flush loses nothing and invents nothing.  It emits the due
    queued lines, in queue order, followed by the lines of the ready
    drafts, in table order; it keeps the queued lines that are not due
    and the drafts that are not ready; so the queued lines of the state
    are the ones emitted and the ones kept, and the drafts of the state
    are the ones emitted and the ones kept. *)
Theorem flush_ready_conserves (cfg : Config) (now : Q) (st : State) :
  Dict.wf (_segments st) ->
  fst (flush_ready cfg now st)
  = filter (due cfg now) (_completed st)
    ++ map line_of (filter (ready cfg now) (_segments st))
  /\ _completed (snd (flush_ready cfg now st))
     = filter (fun l => negb (due cfg now l)) (_completed st)
  /\ _segments (snd (flush_ready cfg now st))
     = filter (fun item => negb (ready cfg now item)) (_segments st)
  /\ Permutation (_completed st)
                 (filter (due cfg now) (_completed st)
                  ++ _completed (snd (flush_ready cfg now st)))
  /\ Permutation (_segments st)
                 (filter (ready cfg now) (_segments st)
                  ++ _segments (snd (flush_ready cfg now st))).
Proof.
  intros W. rewrite (flush_ready_partition cfg now st W).
  cbn [fst snd _segments _completed].
  split; [reflexivity|]. split; [reflexivity|]. split; [reflexivity|].
  split; apply filter_split_perm.
Qed.

Lemma fresh_segment_text (text : str) (now : Q) :
  _segment_text (fresh text now) = Py.strip text.
Proof. unfold _segment_text, fresh. simpl. apply strip_idem. Qed.

(** X11.  The first caption of a speaker, if it is not empty and nothing
    else arrives for the speaker, is flushed by any tick [idle_seconds]
    or more after it: the line carries the trimmed text and the time of
    the update, and the speaker's draft is gone. *)
Theorem first_caption_flushed
        (ratio : str -> str -> option Q) (cfg : Config) (now tick : Q)
        (speaker text : str) (ts : Q) (st : State) :
  Dict.wf (_segments st) ->
  text <> [] ->
  Dict.get speaker (_segments st) = None ->
  (idle_seconds cfg <= tick - now)%Q ->
  In (speaker, Py.strip text, now)
     (fst (flush_ready cfg tick (update ratio cfg now speaker text ts st)))
  /\ Dict.get speaker
       (_segments
          (snd (flush_ready cfg tick
                            (update ratio cfg now speaker text ts st))))
     = None.
Proof.
  intros W T G I.
  rewrite (update_first ratio cfg now speaker text ts st T G).
  assert (W' : Dict.wf (Dict.set speaker (fresh text now) (_segments st)))
    by now apply wf_set.
  assert (R : ready cfg tick (speaker, fresh text now) = true).
  { apply ready_iff. left. exact I. }
  rewrite flush_ready_partition by exact W'. cbn [fst snd _segments].
  split.
  - apply in_or_app. right.
    rewrite <- fresh_segment_text with (now := now).
    change (speaker, _segment_text (fresh text now), now)
      with (line_of (speaker, fresh text now)).
    apply in_map, filter_In. split; [|exact R].
    apply get_some_in, get_set_same.
  - rewrite get_filter by exact W'. rewrite get_set_same, R. reflexivity.
Qed.

(** ** More on the dedup gate *)

(** X12.  What [_emit_final] hands to the sink is the trimmed speaker,
    the trimmed text, which is never empty, and the [ts] it was given; a
    blank text is dropped and leaves [LAST_SENT] alone. *)
Theorem emit_final_payload (now : Q) (speaker text : str) (ts : Q)
        (last_sent : Dict.t Q) :
  (Py.strip text = [] ->
   _emit_final now speaker text ts last_sent = (last_sent, None))
  /\ (forall spk txt t,
         snd (_emit_final now speaker text ts last_sent) = Some (spk, txt, t) ->
         spk = Py.strip speaker /\ txt = Py.strip text /\ t = ts
         /\ txt <> [] /\ Py.strip txt = txt /\ Py.strip spk = spk).
Proof.
  rewrite emit_final_unfold. split.
  - intros E. now rewrite E.
  - intros spk txt t.
    destruct (Py.is_empty (Py.strip text)) eqn:B; [discriminate|].
    destruct (suppressed now (dedupe_key speaker text) last_sent);
      [discriminate|].
    cbn [snd]. intros [= <- <- <-].
    repeat split; try apply strip_idem. now apply is_empty_false.
Qed.

(** Hello from Alice, with blanks around both. *)
Lemma emit_final_payload_witness :
  Py.strip (lit "  ") = []
  /\ _emit_final 10 Alice (lit "  ") 10 Dict.empty = (Dict.empty, None)
  /\ snd (_emit_final 10 (lit " Alice ") (lit " Hello ") 7 Dict.empty)
     = Some (Alice, lit "Hello", 7%Q)
  /\ lit "Hello" <> [].
Proof.
  assert (B : Py.strip (lit "  ") = []) by reflexivity.
  assert (E : snd (_emit_final 10 (lit " Alice ") (lit " Hello ") 7 Dict.empty)
              = Some (Alice, lit "Hello", 7%Q)) by reflexivity.
  split; [exact B|]. split; [|split; [exact E|]].
  - exact (proj1 (emit_final_payload 10%Q Alice (lit "  ") 10%Q Dict.empty) B).
  - exact (proj1 (proj2 (proj2 (proj2
             (proj2 (emit_final_payload 10%Q (lit " Alice ") (lit " Hello ")
                                        7%Q Dict.empty) _ _ _ E))))).
Defined.





(** X14.  The gate looks at the key only: after an emitted attempt, any
    attempt with the same key less than [DEDUP_WINDOW_SECONDS] later is
    dropped, also when its speaker and text are different ones. *)
Theorem dedup_by_key_only
        (last_sent : Dict.t Q) (speaker1 text1 speaker2 text2 : str)
        (ts1 ts2 t1 t2 : Q) :
  Dict.wf last_sent ->
  dedupe_key speaker1 text1 = dedupe_key speaker2 text2 ->
  snd (_emit_final t1 speaker1 text1 ts1 last_sent) <> None ->
  (t2 - t1 < DEDUP_WINDOW_SECONDS)%Q ->
  _emit_final t2 speaker2 text2 ts2
              (fst (_emit_final t1 speaker1 text1 ts1 last_sent))
  = (fst (_emit_final t1 speaker1 text1 ts1 last_sent), None).
Proof.
  intros W K E Win.
  destruct (emit_final_records t1 speaker1 text1 ts1 last_sent W E) as [_ G].
  rewrite (emit_final_unfold t2).
  destruct (Py.is_empty (Py.strip text2)); [reflexivity|].
  rewrite (proj2 (suppressed_iff t2 _ _)); [reflexivity|].
  exists t1. split; [now rewrite <- K | exact Win].
Qed.

(** "b|c" from "a" after "c" from "a|b". *)
Lemma dedup_by_key_only_witness :
  Dict.wf (@Dict.empty Q)
  /\ dedupe_key (lit "a|b") (lit "c") = dedupe_key (lit "a") (lit "b|c")
  /\ (lit "a|b", lit "c") <> (lit "a", lit "b|c")
  /\ snd (_emit_final 10 (lit "a|b") (lit "c") 10 Dict.empty) <> None
  /\ (11 - 10 < DEDUP_WINDOW_SECONDS)%Q
  /\ snd (_emit_final 11 (lit "a") (lit "b|c") 11
            (fst (_emit_final 10 (lit "a|b") (lit "c") 10 Dict.empty)))
     = None.
Proof.
  assert (W : Dict.wf (@Dict.empty Q)) by constructor.
  assert (K : dedupe_key (lit "a|b") (lit "c")
              = dedupe_key (lit "a") (lit "b|c")) by reflexivity.
  assert (E : snd (_emit_final 10 (lit "a|b") (lit "c") 10 Dict.empty) <> None)
    by (vm_compute; discriminate).
  assert (Win : (11 - 10 < DEDUP_WINDOW_SECONDS)%Q) by reflexivity.
  split; [exact W|]. split; [exact K|]. split; [discriminate|].
  split; [exact E|]. split; [exact Win|].
  now rewrite (dedup_by_key_only Dict.empty (lit "a|b") (lit "c") (lit "a")
                 (lit "b|c") 10%Q 11%Q 10%Q 11%Q W K E Win).
Defined.

(** ** More on [_prefix_len] *)

Lemma prefix_len_loop_nil (fuel : nat) (a : str) (j : nat) :
  prefix_len_loop fuel a [] j = j.
Proof. destruct fuel; [reflexivity|]. now destruct a. Qed.

Lemma prefix_len_loop_bound (fuel : nat) :
  forall a b j, prefix_len_loop fuel a b j <= j + length b + 1.
Proof.
  induction fuel as [|fuel IH]; intros a b j; [simpl; lia|].
  destruct a as [|ca a']; [simpl; lia|].
  destruct b as [|cb b']; [simpl; lia|].
  cbn [prefix_len_loop].
  pose proof (lstrip_length (cb :: b')) as Lb.
  destruct (Py.isspace ca), (Py.isspace cb);
    match goal with
    | |- context [Py.eqb_char ?x ?y] => destruct (Py.eqb_char x y)
    end;
    try (cbn [length] in *; lia).
  - destruct (Py.lstrip (cb :: b')) as [|x b1] eqn:E.
    + cbn [tl]. rewrite prefix_len_loop_nil. cbn [length] in *. lia.
    + cbn [tl]. etransitivity; [apply IH|]. cbn [length] in *. lia.
  - cbn [tl]. etransitivity; [apply IH|]. cbn [length]. lia.
  - destruct (Py.lstrip (cb :: b')) as [|x b1] eqn:E.
    + cbn [tl]. rewrite prefix_len_loop_nil. cbn [length] in *. lia.
    + cbn [tl]. etransitivity; [apply IH|]. cbn [length] in *. lia.
  - cbn [tl]. etransitivity; [apply IH|]. cbn [length]. lia.
Qed.

(** X15.  The boundary [_prefix_len] returns is 0 when either text is
    empty and never more than one past the end of the second text; the
    bound is attained, by "x " against itself. *)
Theorem prefix_len_bounds :
  (forall a b, _prefix_len a b <= length b + 1)
  /\ (forall a, _prefix_len a [] = 0)
  /\ (forall b, _prefix_len [] b = 0)
  /\ _prefix_len (lit "x ") (lit "x ") = length (lit "x ") + 1.
Proof.
  split; [|split; [|split]].
  - intros a b. unfold _prefix_len.
    etransitivity; [apply prefix_len_loop_bound|]. lia.
  - intros a. unfold _prefix_len. apply prefix_len_loop_nil.
  - reflexivity.
  - reflexivity.
Qed.

Lemma same_case_space (x y : ascii) :
  Py.lower_char x = Py.lower_char y -> Py.isspace x = Py.isspace y.
Proof.
  intros E. rewrite <- (isspace_lower_char x), <- (isspace_lower_char y).
  now rewrite E.
Qed.

Lemma same_case_lstrip (s s' : str) :
  Forall2 (fun x y => Py.lower_char x = Py.lower_char y) s s' ->
  Forall2 (fun x y => Py.lower_char x = Py.lower_char y)
          (Py.lstrip s) (Py.lstrip s').
Proof.
  induction 1 as [|x y s s' E F IH]; [constructor|]. simpl.
  rewrite <- (same_case_space x y E).
  destruct (Py.isspace x); [exact IH | now constructor].
Qed.

Lemma same_case_tl (s s' : str) :
  Forall2 (fun x y => Py.lower_char x = Py.lower_char y) s s' ->
  Forall2 (fun x y => Py.lower_char x = Py.lower_char y) (tl s) (tl s').
Proof. destruct 1; [constructor | assumption]. Qed.

Lemma prefix_len_loop_same_case (fuel : nat) :
  forall a a' b b' j,
    Forall2 (fun x y => Py.lower_char x = Py.lower_char y) a a' ->
    Forall2 (fun x y => Py.lower_char x = Py.lower_char y) b b' ->
    prefix_len_loop fuel a b j = prefix_len_loop fuel a' b' j.
Proof.
  induction fuel as [|fuel IH]; intros a a' b b' j Fa Fb; [reflexivity|].
  destruct Fa as [|ca ca' a a' Ea Fa]; [reflexivity|].
  destruct Fb as [|cb cb' b b' Eb Fb]; [reflexivity|].
  cbn [prefix_len_loop].
  rewrite <- (same_case_space ca ca' Ea), <- (same_case_space cb cb' Eb).
  assert (Fa' : Forall2 (fun x y => Py.lower_char x = Py.lower_char y)
                        (ca :: a) (ca' :: a')) by now constructor.
  assert (Fb' : Forall2 (fun x y => Py.lower_char x = Py.lower_char y)
                        (cb :: b) (cb' :: b')) by now constructor.
  pose proof (same_case_lstrip _ _ Fa') as La.
  pose proof (same_case_lstrip _ _ Fb') as Lb.
  pose proof (Forall2_length Lb) as Len.
  pose proof (Forall2_length Fb) as Len'.
  destruct (Py.isspace ca), (Py.isspace cb); rewrite <- ?Ea, <- ?Eb;
    match goal with
    | |- context [Py.eqb_char ?x ?y] => destruct (Py.eqb_char x y)
    end;
    cbn [length]; rewrite <- ?Len, <- ?Len'; try reflexivity;
    apply IH; auto using same_case_tl.
Qed.

(** X16.  [_prefix_len] does not see case: texts that differ only in the
    case of their letters give the same boundary, on either side. *)
Theorem prefix_len_ignores_case (a a' b b' : str) :
  Forall2 (fun x y => Py.lower_char x = Py.lower_char y) a a' ->
  Forall2 (fun x y => Py.lower_char x = Py.lower_char y) b b' ->
  _prefix_len a b = _prefix_len a' b'.
Proof.
  intros Fa Fb. unfold _prefix_len. rewrite (Forall2_length Fa).
  now apply prefix_len_loop_same_case.
Qed.

(** "The Plan is" against "the plan IS to ship". *)
Lemma prefix_len_ignores_case_witness :
  Forall2 (fun x y => Py.lower_char x = Py.lower_char y)
          (lit "The Plan is") (lit "the plan is")
  /\ Forall2 (fun x y => Py.lower_char x = Py.lower_char y)
             (lit "the plan IS to ship") (lit "the plan is to ship")
  /\ _prefix_len (lit "The Plan is") (lit "the plan IS to ship")
     = _prefix_len (lit "the plan is") (lit "the plan is to ship").
Proof.
  assert (Fa : Forall2 (fun x y => Py.lower_char x = Py.lower_char y)
                       (lit "The Plan is") (lit "the plan is"))
    by (repeat constructor).
  assert (Fb : Forall2 (fun x y => Py.lower_char x = Py.lower_char y)
                       (lit "the plan IS to ship") (lit "the plan is to ship"))
    by (repeat constructor).
  split; [exact Fa|]. split; [exact Fb|].
  exact (prefix_len_ignores_case _ _ _ _ Fa Fb).
Defined.

(** ** The emitter between captions *)

Lemma set_get_same {V : Type} (k : str) (v : V) (d : Dict.t V) :
  Dict.get k d = Some v -> Dict.set k v d = d.
Proof.
  induction d as [|[k' v'] d IH]; simpl; [discriminate|].
  destruct (str_eqb k k') eqn:E.
  - apply str_eqb_eq in E. subst k'. now intros [= ->].
  - intros G. now rewrite IH.
Qed.

Lemma forall_set {V : Type} (P : str * V -> Prop) (k : str) (v : V)
      (d : Dict.t V) :
  Forall P d -> P (k, v) -> Forall P (Dict.set k v d).
Proof.
  intros F H. induction F as [|[k' v'] d Hd F IH]; simpl.
  - now constructor.
  - destruct (str_eqb k k'); constructor; assumption.
Qed.

Lemma snapshot_no_trailing_space (s : str) :
  snapshot_ok s -> no_trailing_space s = true.
Proof. intros [_ E]. rewrite <- E. apply strip_no_trailing_space. Qed.

Lemma tick_delta_self (s : str) : snapshot_ok s -> tick_delta s s = [].
Proof.
  intros S. pose proof (snapshot_no_trailing_space s S) as N.
  destruct S as [Ne _]. unfold tick_delta.
  rewrite (proj2 (is_empty_false s) Ne). cbn [negb].
  pose proof (prefix_len_extends s [] N) as K. rewrite app_nil_r in K.
  unfold Py.slice_from. now rewrite K, skipn_all.
Qed.

Lemma emitter_eta (e : Emitter) :
  mkEmitter (curr_by_speaker e) (emitted_last_by_speaker e) (LAST_SENT e) = e.
Proof. now destruct e. Qed.

Lemma body_curr (now clock : Q) (speaker curr : str) (e : Emitter) :
  curr_by_speaker (fst (emit_periodic_body now clock speaker curr e))
  = curr_by_speaker e.
Proof.
  unfold emit_periodic_body.
  destruct (negb _ && _); [|reflexivity].
  now destruct (_emit_final _ _ _ _ _).
Qed.

Lemma body_other (now clock : Q) (speaker curr other : str) (e : Emitter) :
  other <> speaker ->
  Dict.get other
    (emitted_last_by_speaker
       (fst (emit_periodic_body now clock speaker curr e)))
  = Dict.get other (emitted_last_by_speaker e).
Proof.
  intros N. unfold emit_periodic_body.
  destruct (negb _ && _).
  - destruct (_emit_final _ _ _ _ _). simpl.
    apply get_set_other. congruence.
  - simpl. apply get_set_other. congruence.
Qed.

(** After the loop body the speaker is settled. *)
Lemma body_settles (now clock : Q) (speaker curr : str) (e : Emitter) :
  snapshot_ok curr ->
  settled (fst (emit_periodic_body now clock speaker curr e)) (speaker, curr).
Proof.
  intros S. unfold settled. cbn [fst snd].
  assert (Self : length (tick_delta curr curr) < 2)
    by (rewrite tick_delta_self by exact S; simpl; lia).
  destruct (Nat.lt_ge_cases
              (length (tick_delta
                         (Dict.get_default speaker []
                                           (emitted_last_by_speaker e))
                         curr)) 2) as [Short|Long].
  - rewrite emit_periodic_body_short by exact Short. cbn [fst].
    cbn [emitted_last_by_speaker].
    destruct (Dict.get_default speaker [] (emitted_last_by_speaker e))
      as [|c p] eqn:P; cbn [Py.is_empty].
    + exists curr. split; [apply get_set_same|]. split; [apply S | exact Self].
    + exists (c :: p). split; [apply get_set_same|].
      split; [discriminate | exact Short].
  - rewrite emit_periodic_body_long by exact Long. cbn [fst].
    cbn [emitted_last_by_speaker].
    exists curr. split; [apply get_set_same|]. split; [apply S | exact Self].
Qed.

(** On a settled speaker the loop body does nothing. *)
Lemma body_settled_noop (now clock : Q) (speaker curr : str) (e : Emitter) :
  settled e (speaker, curr) ->
  emit_periodic_body now clock speaker curr e = (e, None).
Proof.
  intros (prev & G & Ne & Short). cbn [fst snd] in *.
  assert (D : Dict.get_default speaker [] (emitted_last_by_speaker e) = prev)
    by exact (f_equal (fun o => match o with Some v => v | None => [] end) G).
  rewrite emit_periodic_body_short by now rewrite D.
  rewrite D, (proj2 (is_empty_false prev) Ne), (set_get_same _ _ _ G).
  now rewrite emitter_eta.
Qed.

Lemma tick_fold_noop (now : Q) (clock : str -> Q) (items : list (str * str)) :
  forall e out,
    Forall (settled e) items ->
    fold_left (tick_step now clock) items (e, out) = (e, out).
Proof.
  induction items as [|[spk curr] items IH]; intros e out F; [reflexivity|].
  inversion F as [|? ? S F']; subst. cbn [fold_left tick_step].
  rewrite (body_settled_noop now (clock spk) spk curr e S).
  rewrite app_nil_r. now apply IH.
Qed.

Lemma tick_fold_curr (now : Q) (clock : str -> Q) (items : list (str * str)) :
  forall e out,
    curr_by_speaker (fst (fold_left (tick_step now clock) items (e, out)))
    = curr_by_speaker e.
Proof.
  induction items as [|[spk curr] items IH]; intros e out; [reflexivity|].
  cbn [fold_left tick_step].
  pose proof (body_curr now (clock spk) spk curr e) as B.
  destruct (emit_periodic_body now (clock spk) spk curr e) as [e2 o].
  rewrite IH. exact B.
Qed.

Lemma tick_fold_other (now : Q) (clock : str -> Q) (other : str)
      (items : list (str * str)) :
  forall e out,
    ~ In other (map fst items) ->
    Dict.get other
      (emitted_last_by_speaker
         (fst (fold_left (tick_step now clock) items (e, out))))
    = Dict.get other (emitted_last_by_speaker e).
Proof.
  induction items as [|[spk curr] items IH]; intros e out N; [reflexivity|].
  cbn [fold_left tick_step].
  pose proof (body_other now (clock spk) spk curr other e) as B.
  destruct (emit_periodic_body now (clock spk) spk curr e) as [e2 o].
  rewrite IH by (intros I; apply N; now right).
  apply B. intros ->. apply N. now left.
Qed.

Lemma tick_fold_settles (now : Q) (clock : str -> Q)
      (items : list (str * str)) :
  forall e out,
    NoDup (map fst items) ->
    Forall (fun kv => snapshot_ok (snd kv)) items ->
    Forall (settled (fst (fold_left (tick_step now clock) items (e, out))))
           items.
Proof.
  induction items as [|[spk curr] items IH]; intros e out D F; [constructor|].
  inversion D as [|? ? N D']; subst. inversion F as [|? ? S F']; subst.
  cbn [fold_left tick_step].
  pose proof (body_settles now (clock spk) spk curr e S) as B.
  destruct (emit_periodic_body now (clock spk) spk curr e) as [e2 o].
  cbn [fst] in B. constructor; [|now apply IH].
  destruct B as (prev & G & Ne & Short). exists prev.
  split; [|now split]. cbn [fst]. now rewrite tick_fold_other.
Qed.

(** X17.  With the snapshots [_on_caption] stores, a tick that follows a
    tick with no caption in between emits nothing and changes nothing,
    whatever the clock says. *)
Theorem second_tick_is_quiet (now now' : Q) (clock clock' : str -> Q)
        (e : Emitter) :
  snapshots_ok (curr_by_speaker e) ->
  emit_periodic_tick now' clock' (fst (emit_periodic_tick now clock e))
  = (fst (emit_periodic_tick now clock e), []).
Proof.
  intros [W F].
  assert (F' : Forall (fun kv => snapshot_ok (snd kv)) (curr_by_speaker e)).
  { eapply Forall_impl; [|exact F]. now intros kv [_ S]. }
  change (emit_periodic_tick now clock e)
    with (fold_left (tick_step now clock) (Dict.items (curr_by_speaker e))
                    (e, [])).
  unfold Dict.items.
  set (e1 := fst (fold_left (tick_step now clock) (curr_by_speaker e) (e, []))).
  change (emit_periodic_tick now' clock' e1)
    with (fold_left (tick_step now' clock') (Dict.items (curr_by_speaker e1))
                    (e1, [])).
  unfold Dict.items, e1. rewrite tick_fold_curr.
  apply tick_fold_noop. now apply tick_fold_settles.
Qed.

(** X18.  [_on_caption] keeps the invariant of the snapshots: speakers
    are unique and not empty, every snapshot is trimmed and not empty.  A
    blank text changes nothing; any other text is stored trimmed under
    the trimmed speaker, or under "Unknown" when that is empty, and the
    emitted texts and [LAST_SENT] are not touched. *)
Theorem on_caption_keeps_snapshots (text speaker : str) (e : Emitter) :
  snapshots_ok (curr_by_speaker e) ->
  snapshots_ok (curr_by_speaker (_on_caption text speaker e))
  /\ (Py.strip text = [] -> _on_caption text speaker e = e)
  /\ (Py.strip text <> [] ->
      Dict.get (if Py.is_empty (Py.strip speaker) then lit "Unknown"
                else Py.strip speaker)
               (curr_by_speaker (_on_caption text speaker e))
      = Some (Py.strip text))
  /\ emitted_last_by_speaker (_on_caption text speaker e)
     = emitted_last_by_speaker e
  /\ LAST_SENT (_on_caption text speaker e) = LAST_SENT e.
Proof.
  intros [W F]. unfold _on_caption.
  destruct (Py.strip text) as [|c t] eqn:T; cbn [Py.is_empty].
  - repeat split; try assumption. congruence.
  - cbn [curr_by_speaker emitted_last_by_speaker LAST_SENT].
    split; [|split; [discriminate|split; [intros _; apply get_set_same|]]];
      [|now split].
    split; [now apply wf_set|]. apply forall_set; [exact F|].
    cbn [fst snd]. split.
    + destruct (Py.strip speaker); cbn [Py.is_empty]; discriminate.
    + split; [discriminate|]. rewrite <- T. apply strip_idem.
Qed.

(** ** The API base and the meeting id *)

Lemma lstrip_chars_head (chars s : str) :
  match Py.lstrip_chars chars s with
  | [] => True
  | c :: _ => Py.char_in c chars = false
  end.
Proof.
  induction s as [|c s IH]; simpl; [exact I|].
  destruct (Py.char_in c chars) eqn:E; [exact IH | exact E].
Qed.

Lemma lstrip_chars_fixed (chars s : str) :
  match s with [] => True | c :: _ => Py.char_in c chars = false end ->
  Py.lstrip_chars chars s = s.
Proof. destruct s as [|c s]; [reflexivity|]. simpl. now intros ->. Qed.

Lemma startswith_split (s p : str) :
  Py.startswith s p = true -> exists rest, s = p ++ rest.
Proof.
  revert s. induction p as [|x p IH]; intros s H; [now exists s|].
  destruct s as [|y s]; [discriminate|]. simpl in H.
  apply andb_true_iff in H. destruct H as [E H].
  apply eqb_char_eq in E. subst y.
  destruct (IH s H) as [rest ->]. now exists rest.
Qed.

Lemma endswith_split (s suffix : str) :
  Py.endswith s suffix = true -> exists front, s = front ++ suffix.
Proof.
  unfold Py.endswith. intros H.
  destruct (startswith_split _ _ H) as [rest E].
  exists (rev rest). apply (f_equal (@rev ascii)) in E.
  now rewrite rev_involutive, rev_app_distr, rev_involutive in E.
Qed.

Lemma rstrip_chars_no_tail (c : ascii) (s : str) :
  Py.endswith (Py.rstrip_chars [c] s) [c] = false.
Proof.
  unfold Py.endswith, Py.rstrip_chars. rewrite rev_involutive.
  pose proof (lstrip_chars_head [c] (rev s)) as H.
  destruct (Py.lstrip_chars [c] (rev s)) as [|x l]; [reflexivity|].
  simpl in *. rewrite orb_false_r in H.
  unfold Py.eqb_char in *. rewrite Ascii.eqb_sym, H. reflexivity.
Qed.

(** X19.  [_default_api_base]: with [API_BASE_URL] set, the base is that
    URL without its trailing slashes, so it never ends in a slash;
    without it, the base is empty unless the trimmed [BACKEND_URL], its
    trailing slashes dropped, ends in "/captions", and then the base
    followed by "/captions" is that URL again. *)
Theorem default_api_base_shape (API_BASE_URL BACKEND_URL : str) :
  (API_BASE_URL <> [] ->
   _default_api_base API_BASE_URL BACKEND_URL
   = Py.rstrip_chars (lit "/") API_BASE_URL
   /\ Py.endswith (_default_api_base API_BASE_URL BACKEND_URL) (lit "/")
      = false)
  /\ (API_BASE_URL = [] ->
      (Py.endswith (Py.rstrip_chars (lit "/") (Py.strip BACKEND_URL))
                   (lit "/captions") = false
       /\ _default_api_base API_BASE_URL BACKEND_URL = [])
      \/ (Py.endswith (Py.rstrip_chars (lit "/") (Py.strip BACKEND_URL))
                      (lit "/captions") = true
          /\ _default_api_base API_BASE_URL BACKEND_URL ++ lit "/captions"
             = Py.rstrip_chars (lit "/") (Py.strip BACKEND_URL))).
Proof.
  unfold _default_api_base. split.
  - intros N. rewrite (proj2 (is_empty_false _) N). cbn [negb].
    split; [reflexivity|]. apply (rstrip_chars_no_tail "/"%char).
  - intros ->. cbn [Py.is_empty negb].
    set (u := Py.rstrip_chars (lit "/") (Py.strip BACKEND_URL)).
    destruct (Py.endswith u (lit "/captions")) eqn:E; [right | now left].
    split; [reflexivity|].
    destruct (endswith_split _ _ E) as [front F].
    unfold Py.drop_last. rewrite F at 1 2.
    rewrite length_app, Nat.add_sub, firstn_app, firstn_all, Nat.sub_diag.
    simpl firstn. now rewrite app_nil_r.
Qed.

(** The defaults of the module, and a base given with a slash. *)
Lemma default_api_base_shape_witness :
  lit "http://api.local/" <> []
  /\ _default_api_base (lit "http://api.local/") [] = lit "http://api.local"
  /\ _default_api_base [] (lit "http://localhost:5000/captions")
     = lit "http://localhost:5000".
Proof.
  assert (N : lit "http://api.local/" <> []) by discriminate.
  split; [exact N|]. split.
  - exact (proj1 (proj1 (default_api_base_shape (lit "http://api.local/") [])
                        N)).
  - destruct (proj2 (default_api_base_shape
                       [] (lit "http://localhost:5000/captions")) eq_refl)
      as [[E _]|[_ E]]; [discriminate E|].
    reflexivity.
Defined.

Lemma split_no_sep (sep : ascii) (s : str) :
  Forall (fun part => ~ In sep part) (Py.split sep s).
Proof.
  induction s as [|c s IH]; simpl.
  - constructor; [tauto | constructor].
  - destruct (Py.eqb_char c sep) eqn:E.
    + constructor; [simpl; tauto | exact IH].
    + destruct (Py.split sep s) as [|part parts].
      * constructor; [|constructor]. intros [H|[]]. subst.
        now rewrite eqb_char_refl in E.
      * inversion IH as [|? ? Hp Hps]; subst. constructor; [|exact Hps].
        intros [H|H]; [subst; now rewrite eqb_char_refl in E | tauto].
Qed.

Lemma split_nonempty (sep : ascii) (s : str) : Py.split sep s <> [].
Proof.
  destruct s as [|c s]; simpl; [discriminate|].
  destruct (Py.eqb_char c sep); [discriminate|].
  destruct (Py.split sep s); discriminate.
Qed.

Lemma last_in (A : Type) (l : list A) (d : A) : l <> [] -> In (last l d) l.
Proof.
  induction l as [|x l IH]; [congruence|]. intros _.
  destruct l as [|y l]; [now left|].
  right. apply IH. discriminate.
Qed.

(** X20.  The meeting id is never empty and never contains a slash; it is
    "unknown" when the path has nothing but slashes. *)
Theorem meeting_id_shape (path : str) :
  meeting_id path <> []
  /\ ~ In "/"%char (meeting_id path)
  /\ (Py.strip_chars (lit "/") path = [] -> meeting_id path = lit "unknown").
Proof.
  unfold meeting_id.
  set (parts := Py.split "/"%char (Py.strip_chars (lit "/") path)).
  assert (I : In (last parts []) parts)
    by apply last_in, split_nonempty.
  pose proof (split_no_sep "/"%char (Py.strip_chars (lit "/") path)) as F.
  fold parts in F. rewrite Forall_forall in F. specialize (F _ I).
  split; [|split].
  - destruct (last parts []); cbn [Py.is_empty negb]; discriminate.
  - destruct (last parts []) eqn:E; cbn [Py.is_empty negb]; [|exact F].
    vm_compute. intuition discriminate.
  - intros E. unfold parts. rewrite E. reflexivity.
Qed.

Lemma char_in_single (c x : ascii) :
  Py.char_in x [c] = false <-> x <> c.
Proof.
  unfold Py.char_in. simpl. rewrite orb_false_r.
  split.
  - intros E ->. now rewrite eqb_char_refl in E.
  - intros N. destruct (Py.eqb_char x c) eqn:E; [|reflexivity].
    apply eqb_char_eq in E. contradiction.
Qed.

Lemma rstrip_chars_end (c : ascii) (front name : str) :
  name <> [] -> ~ In c name ->
  Py.rstrip_chars [c] (front ++ name) = front ++ name.
Proof.
  intros Ne N. unfold Py.rstrip_chars.
  rewrite lstrip_chars_fixed; [apply rev_involutive|].
  rewrite rev_app_distr.
  destruct (rev name) as [|x l] eqn:R.
  - apply (f_equal (@length ascii)) in R. rewrite length_rev in R.
    destruct name; [congruence | discriminate].
  - cbn [app]. apply char_in_single. intros ->. apply N.
    apply in_rev. rewrite R. now left.
Qed.

Lemma lstrip_chars_component (c : ascii) (name : str) :
  ~ In c name ->
  forall front,
    Py.lstrip_chars [c] (front ++ c :: name) = name
    \/ exists front', Py.lstrip_chars [c] (front ++ c :: name)
                      = front' ++ c :: name.
Proof.
  intros N. induction front as [|x front IH]; cbn [app Py.lstrip_chars].
  - assert (E : Py.char_in c [c] = true)
      by (unfold Py.char_in; simpl; now rewrite eqb_char_refl).
    rewrite E. left. apply lstrip_chars_fixed.
    destruct name as [|y name]; [exact I|].
    apply char_in_single. intros ->. apply N. now left.
  - destruct (Py.char_in x [c]); [exact IH|].
    right. now exists (x :: front).
Qed.

Lemma split_whole (sep : ascii) (name : str) :
  ~ In sep name -> Py.split sep name = [name].
Proof.
  induction name as [|c name IH]; intros N; [reflexivity|]. simpl.
  assert (E : Py.eqb_char c sep = false).
  { destruct (Py.eqb_char c sep) eqn:E; [|reflexivity].
    apply eqb_char_eq in E. subst. exfalso. apply N. now left. }
  rewrite E, IH; [reflexivity|]. intros I. apply N. now right.
Qed.

Lemma split_last_component (sep : ascii) (name : str) :
  ~ In sep name ->
  forall front,
    exists first rest,
      Py.split sep (front ++ sep :: name) = first :: rest
      /\ rest <> [] /\ last rest [] = name.
Proof.
  intros N. induction front as [|c front IH]; cbn [app Py.split].
  - rewrite eqb_char_refl, (split_whole sep name N).
    exists [], [name]. repeat split. discriminate.
  - destruct IH as (first & rest & E & Ne & L). rewrite E.
    destruct (Py.eqb_char c sep).
    + exists [], (first :: rest). repeat split; [discriminate|].
      destruct rest; [congruence | exact L].
    + exists (c :: first), rest. now repeat split.
Qed.

(** X21.  The meeting id is the last component of the path: for a path
    that ends in a slash and a name without slashes, it is that name. *)
Theorem meeting_id_last_component (front name : str) :
  name <> [] ->
  ~ In "/"%char name ->
  meeting_id (front ++ "/"%char :: name) = name.
Proof.
  intros Ne N. unfold meeting_id, Py.strip_chars.
  assert (L : last (Py.split "/"%char
                      (Py.rstrip_chars (lit "/")
                         (Py.lstrip_chars (lit "/")
                                          (front ++ "/"%char :: name))))
                   [] = name).
  { destruct (lstrip_chars_component "/"%char name N front)
      as [E|[front' E]]; change (lit "/") with ["/"%char]; rewrite E.
    - rewrite <- (app_nil_l name) at 1.
      rewrite (rstrip_chars_end "/"%char [] name Ne N). cbn [app].
      now rewrite split_whole.
    - change (front' ++ "/"%char :: name)
        with (front' ++ ["/"%char] ++ name).
      rewrite app_assoc, (rstrip_chars_end "/"%char _ name Ne N).
      rewrite <- app_assoc. cbn [app].
      destruct (split_last_component "/"%char name N front')
        as (first & rest & S & Nr & La).
      rewrite S. destruct rest; [congruence | exact La]. }
  rewrite L. now rewrite (proj2 (is_empty_false name) Ne).
Qed.

(** The default meeting link, and a path of slashes. *)
Lemma meeting_id_last_component_witness :
  lit "wam-mbqm-axy" <> []
  /\ ~ In "/"%char (lit "wam-mbqm-axy")
  /\ meeting_id (lit "/wam-mbqm-axy") = lit "wam-mbqm-axy".
Proof.
  assert (Ne : lit "wam-mbqm-axy" <> []) by discriminate.
  assert (N : ~ In "/"%char (lit "wam-mbqm-axy"))
    by (vm_compute; intuition discriminate).
  split; [exact Ne|]. split; [exact N|].
  exact (meeting_id_last_component [] (lit "wam-mbqm-axy") Ne N).
Defined.

Lemma meeting_id_shape_witness :
  Py.strip_chars (lit "/") (lit "//") = []
  /\ meeting_id (lit "//") = lit "unknown".
Proof.
  assert (E : Py.strip_chars (lit "/") (lit "//") = []) by reflexivity.
  split; [exact E|].
  exact (proj2 (proj2 (meeting_id_shape (lit "//"))) E).
Defined.

(** ** Leaving when alone *)

Lemma alone_monitor_run (threshold : Q) (rounds : list (option Z * Q)) :
  forall alone_since left_at,
    alone_monitor threshold rounds alone_since = Some left_at ->
    (exists since run rest,
        alone_since = Some since
        /\ rounds = run ++ (Some 1%Z, left_at) :: rest
        /\ Forall counted_alone run
        /\ (threshold <= left_at - since)%Q)
    \/ (exists before since run rest,
           rounds = before ++ (Some 1%Z, since) :: run
                           ++ (Some 1%Z, left_at) :: rest
           /\ Forall counted_alone run
           /\ (threshold <= left_at - since)%Q).
Proof.
  induction rounds as [|[count now] rounds IH]; intros st t H;
    [discriminate|].
  cbn [alone_monitor] in H.
  assert (Other : alone_monitor threshold rounds None = Some t ->
                  exists before since run rest,
                    (count, now) :: rounds
                    = before ++ (Some 1%Z, since) :: run
                             ++ (Some 1%Z, t) :: rest
                    /\ Forall counted_alone run
                    /\ (threshold <= t - since)%Q).
  { intros H'. destruct (IH None t H')
      as [(s & run & rest & E & _)|(before & s & run & rest & E & F & L)];
      [discriminate|].
    exists ((count, now) :: before), s, run, rest. now rewrite E. }
  destruct count as [[|[p|p|]|p]|]; cbn [alone_round] in H;
    try (right; now apply Other).
  destruct st as [since|].
  - destruct (Qgeb (now - since) threshold) eqn:G.
    + injection H as <-. left. exists since, [], rounds.
      repeat split; [constructor | now apply Qgeb_true].
    + destruct (IH (Some since) t H)
        as [(s & run & rest & E & R & F & L)
           |(before & s & run & rest & E & F & L)].
      * injection E as <-. left.
        exists since, ((Some 1%Z, now) :: run), rest.
        rewrite R. repeat split; [|exact L].
        constructor; [reflexivity | exact F].
      * right. exists ((Some 1%Z, now) :: before), s, run, rest.
        now rewrite E.
  - destruct (IH (Some now) t H)
      as [(s & run & rest & E & R & F & L)
         |(before & s & run & rest & E & F & L)].
    + injection E as <-. right. exists [], now, run, rest.
      now rewrite R.
    + right. exists ((Some 1%Z, now) :: before), s, run, rest.
      now rewrite E.
Qed.

(** X22.  The alone monitor leaves only at the end of a run of rounds
    that all counted one participant, and only when the clock of the
    leaving round is at least the threshold past the clock of the round
    that started the run. *)
Theorem alone_monitor_leaves_after_run
        (threshold : Q) (rounds : list (option Z * Q)) (left_at : Q) :
  alone_monitor threshold rounds None = Some left_at ->
  exists before since run rest,
    rounds = before ++ (Some 1%Z, since) :: run
                    ++ (Some 1%Z, left_at) :: rest
    /\ Forall counted_alone run
    /\ (threshold <= left_at - since)%Q.
Proof.
  intros H.
  destruct (alone_monitor_run threshold rounds None left_at H)
    as [(s & run & rest & E & _)|R]; [discriminate | exact R].
Qed.

(** Counts 2, 1, 1, 1 at 0, 5, 10, 50 seconds with the default of 45s. *)
Lemma alone_monitor_leaves_after_run_witness :
  alone_monitor 45 [(Some 2%Z, 0%Q); (Some 1%Z, 5%Q); (Some 1%Z, 10%Q);
                    (Some 1%Z, 50%Q)] None
  = Some 50%Q
  /\ exists before since run rest,
      [(Some 2%Z, 0%Q); (Some 1%Z, 5%Q); (Some 1%Z, 10%Q); (Some 1%Z, 50%Q)]
      = before ++ (Some 1%Z, since) :: run ++ (Some 1%Z, 50%Q) :: rest
      /\ Forall counted_alone run
      /\ (45 <= 50 - since)%Q.
Proof.
  assert (H : alone_monitor 45 [(Some 2%Z, 0%Q); (Some 1%Z, 5%Q);
                                (Some 1%Z, 10%Q); (Some 1%Z, 50%Q)] None
              = Some 50%Q) by reflexivity.
  split; [exact H|].
  exact (alone_monitor_leaves_after_run 45%Q _ 50%Q H).
Defined.

(** ** Instances of the further properties *)

(** "Goodbye" half a second after "Hello" in grouped mode. *)
Lemma grouped_fold_keeps_text_witness :
  merge_consecutive (mkConfig true 2 1 20 8 30) = true
  /\ lit "Goodbye" <> []
  /\ Dict.get Alice (_segments (hello1 Difflib.ratio))
     = Some (mkSegment [] (lit "Hello") 0 0)
  /\ _should_merge Difflib.ratio (lit "Hello") (lit "Goodbye") = false
  /\ exists seg',
      Dict.get Alice
        (_segments (update Difflib.ratio (mkConfig true 2 1 20 8 30) (1 # 2)
                           Alice (lit "Goodbye") (1 # 2)
                           (hello1 Difflib.ratio)))
      = Some seg'
      /\ _segment_text seg' = lit "Hello Goodbye".
Proof.
  assert (M : merge_consecutive (mkConfig true 2 1 20 8 30) = true)
    by reflexivity.
  assert (T : lit "Goodbye" <> []) by discriminate.
  assert (G : Dict.get Alice (_segments (hello1 Difflib.ratio))
              = Some (mkSegment [] (lit "Hello") 0 0)) by reflexivity.
  assert (N : _should_merge Difflib.ratio (lit "Hello") (lit "Goodbye") = false)
    by (vm_compute; reflexivity).
  split; [exact M|]. split; [exact T|]. split; [exact G|]. split; [exact N|].
  destruct (grouped_fold_keeps_text
              Difflib.ratio (mkConfig true 2 1 20 8 30) (1 # 2)%Q Alice
              (lit "Goodbye") (1 # 2)%Q (hello1 Difflib.ratio)
              (mkSegment [] (lit "Hello") 0 0) M T G)
    as (seg' & G' & _ & _ & _ & S);
    [vm_compute; discriminate | vm_compute; discriminate
     | vm_compute; discriminate | exact N |].
  exists seg'. split; [exact G' | exact S].
Defined.

(** The same event in incremental mode. *)
Lemma incremental_overwrite_drops_fragment_witness :
  Dict.wf (_segments (hello1 Difflib.ratio))
  /\ merge_consecutive default_config = false
  /\ lit "Goodbye" <> []
  /\ Dict.get Alice (_segments (hello1 Difflib.ratio))
     = Some (mkSegment [] (lit "Hello") 0 0)
  /\ _should_merge Difflib.ratio (lit "Hello") (lit "Goodbye") = false
  /\ update Difflib.ratio default_config (1 # 2) Alice (lit "Goodbye") (1 # 2)
            (hello1 Difflib.ratio)
     = mkState [(Alice, mkSegment [] (lit "Goodbye") 0 (1 # 2))] [].
Proof.
  assert (W : Dict.wf (_segments (hello1 Difflib.ratio))).
  { unfold Dict.wf. simpl. constructor; [simpl; tauto | constructor]. }
  assert (M : merge_consecutive default_config = false) by reflexivity.
  assert (T : lit "Goodbye" <> []) by discriminate.
  assert (G : Dict.get Alice (_segments (hello1 Difflib.ratio))
              = Some (mkSegment [] (lit "Hello") 0 0)) by reflexivity.
  assert (N : _should_merge Difflib.ratio (lit "Hello") (lit "Goodbye") = false)
    by (vm_compute; reflexivity).
  split; [exact W|]. split; [exact M|]. split; [exact T|].
  split; [exact G|]. split; [exact N|].
  refine (proj1 (incremental_overwrite_drops_fragment
                   Difflib.ratio default_config (1 # 2)%Q Alice (lit "Goodbye")
                   (1 # 2)%Q (hello1 Difflib.ratio) _ W M T G _ _ N));
    vm_compute; discriminate.
Defined.

(** Bob's draft while Alice goes on. *)
Lemma update_speaker_isolation_witness :
  lit "Bob" <> Alice
  /\ Dict.get (lit "Bob")
       (_segments
          (update Difflib.ratio default_config 1 Alice (lit "Hello") 1
                  (update Difflib.ratio default_config 0 (lit "Bob")
                          (lit "Hi") 0 initial_state)))
     = Some (mkSegment [] (lit "Hi") 0 0).
Proof.
  assert (N : lit "Bob" <> Alice) by discriminate.
  split; [exact N|].
  now rewrite (proj1 (update_speaker_isolation
                        Difflib.ratio default_config 1%Q Alice (lit "Hello")
                        1%Q _) (lit "Bob") N).
Defined.

Lemma hello_goodbye_wf :
  Dict.wf (_segments (hello_goodbye Difflib.ratio)).
Proof. unfold Dict.wf. simpl. constructor; [simpl; tauto | constructor]. Defined.

(** Two flushes at t=40 after the split of "Hello". *)
Lemma flush_ready_twice_witness :
  Dict.wf (_segments (hello_goodbye Difflib.ratio))
  /\ fst (flush_ready default_config 40 (hello_goodbye Difflib.ratio))
     = [(Alice, lit "Hello", 0%Q)]
  /\ fst (flush_ready default_config 40
            (snd (flush_ready default_config 40
                              (hello_goodbye Difflib.ratio))))
     = [].
Proof.
  split; [exact hello_goodbye_wf|]. split; [reflexivity|].
  now rewrite (flush_ready_twice default_config 40%Q
                 (hello_goodbye Difflib.ratio) hello_goodbye_wf).
Defined.

Lemma flush_ready_conserves_witness :
  Dict.wf (_segments (hello_goodbye Difflib.ratio))
  /\ fst (flush_ready default_config 40 (hello_goodbye Difflib.ratio))
     = [(Alice, lit "Hello", 0%Q)]
  /\ snd (flush_ready default_config 40 (hello_goodbye Difflib.ratio))
     = mkState [(Alice, mkSegment [] (lit "Goodbye") 40 40)] []
  /\ Permutation
       (_completed (hello_goodbye Difflib.ratio))
       (filter (due default_config 40)
               (_completed (hello_goodbye Difflib.ratio))
        ++ _completed
             (snd (flush_ready default_config 40
                               (hello_goodbye Difflib.ratio))))
  /\ Permutation
       (_segments (hello_goodbye Difflib.ratio))
       (filter (ready default_config 40)
               (_segments (hello_goodbye Difflib.ratio))
        ++ _segments
             (snd (flush_ready default_config 40
                               (hello_goodbye Difflib.ratio)))).
Proof.
  pose proof (flush_ready_conserves default_config 40%Q
                (hello_goodbye Difflib.ratio) hello_goodbye_wf)
    as (F & C & S & PC & PS).
  split; [exact hello_goodbye_wf|].
  split; [rewrite F; reflexivity|].
  split; [|split; [exact PC|exact PS]].
  destruct (flush_ready default_config 40 (hello_goodbye Difflib.ratio))
    as [out [segs comp]].
  cbn [snd _segments _completed] in C, S. rewrite C, S. reflexivity.
Defined.

(** " Hello " from Alice at t=0, flushed at t=2. *)
Lemma first_caption_flushed_witness :
  Dict.wf (_segments initial_state)
  /\ lit " Hello " <> []
  /\ Dict.get Alice (_segments initial_state) = None
  /\ (idle_seconds default_config <= 2 - 0)%Q
  /\ In (Alice, lit "Hello", 0%Q)
        (fst (flush_ready default_config 2
                (update Difflib.ratio default_config 0 Alice (lit " Hello ")
                        0 initial_state))).
Proof.
  assert (W : Dict.wf (_segments initial_state)) by constructor.
  assert (T : lit " Hello " <> []) by discriminate.
  assert (G : Dict.get Alice (_segments initial_state) = None)
    by reflexivity.
  assert (I : (idle_seconds default_config <= 2 - 0)%Q)
    by (vm_compute; discriminate).
  split; [exact W|]. split; [exact T|]. split; [exact G|]. split; [exact I|].
  exact (proj1 (first_caption_flushed Difflib.ratio default_config 0%Q 2%Q
                  Alice (lit " Hello ") 0%Q initial_state W T G I)).
Defined.

Lemma plan_snapshots_ok : snapshots_ok (curr_by_speaker plan_emitter).
Proof.
  split.
  - unfold Dict.wf. simpl. constructor; [simpl; tauto | constructor].
  - constructor; [|constructor]. simpl.
    split; [discriminate|]. split; [discriminate | reflexivity].
Defined.

(** The plan example ticked twice. *)
Lemma second_tick_is_quiet_witness :
  snapshots_ok (curr_by_speaker plan_emitter)
  /\ snd (emit_periodic_tick 4 (fun _ => 4%Q) plan_emitter)
     = [(Alice, lit "to ship", 4%Q)]
  /\ snd (emit_periodic_tick 8 (fun _ => 8%Q)
            (fst (emit_periodic_tick 4 (fun _ => 4%Q) plan_emitter)))
     = [].
Proof.
  split; [exact plan_snapshots_ok|]. split; [reflexivity|].
  now rewrite (second_tick_is_quiet 4%Q 8%Q (fun _ => 4%Q) (fun _ => 8%Q)
                 plan_emitter plan_snapshots_ok).
Defined.

(** A caption without a speaker badge. *)
Lemma on_caption_keeps_snapshots_witness :
  snapshots_ok (curr_by_speaker plan_emitter)
  /\ Py.strip (lit " Hi there ") <> []
  /\ snapshots_ok
       (curr_by_speaker (_on_caption (lit " Hi there ") (lit " ")
                                     plan_emitter))
  /\ Dict.get (lit "Unknown")
       (curr_by_speaker (_on_caption (lit " Hi there ") (lit " ")
                                     plan_emitter))
     = Some (lit "Hi there").
Proof.
  assert (T : Py.strip (lit " Hi there ") <> []) by discriminate.
  pose proof (on_caption_keeps_snapshots (lit " Hi there ") (lit " ")
                plan_emitter plan_snapshots_ok) as (S & _ & G & _).
  split; [exact plan_snapshots_ok|]. split; [exact T|].
  split; [exact S | exact (G T)].
Defined.

(** ** Texts without letters or digits *)

Lemma isalnum_lower_char (c : ascii) :
  Py.isalnum (Py.lower_char c) = Py.isalnum c.
Proof. destruct c as [[] [] [] [] [] [] [] []]; reflexivity. Qed.

Lemma lstrip_empty_iff (w : str) :
  Py.lstrip w = [] <-> forallb Py.isspace w = true.
Proof.
  induction w as [|c w IH]; simpl; [tauto|].
  destruct (Py.isspace c); simpl; [exact IH|].
  split; discriminate.
Qed.

Lemma strip_empty_iff (w : str) :
  Py.strip w = [] <-> forallb Py.isspace w = true.
Proof.
  rewrite <- lstrip_empty_iff. unfold Py.strip.
  pose proof (lstrip_head w) as H.
  destruct (Py.lstrip w) as [|x r]; [tauto|].
  rewrite rstrip_cons, H. simpl. split; discriminate.
Qed.

Lemma norm_loop_blank (s : str) :
  forall last_space,
    forallb Py.isspace (norm_loop s last_space) = no_alnum s.
Proof.
  induction s as [|ch s IH]; intros ls; [reflexivity|].
  cbn [norm_loop no_alnum forallb].
  destruct (Py.isalnum ch) eqn:A.
  - cbn [forallb negb andb]. now rewrite (alnum_not_space ch A).
  - cbn [negb andb]. destruct ls; cbn [negb forallb]; apply IH.
Qed.

Lemma no_alnum_lower (s : str) : no_alnum (Py.lower s) = no_alnum s.
Proof.
  unfold no_alnum, Py.lower. induction s as [|c s IH]; [reflexivity|].
  simpl. now rewrite isalnum_lower_char, IH.
Qed.

Lemma norm_empty_iff (s : str) : _norm s = [] <-> no_alnum s = true.
Proof.
  unfold _norm. now rewrite strip_empty_iff, norm_loop_blank, no_alnum_lower.
Qed.

(** X23.  [_norm] returns the empty text exactly for texts without a
    letter or a digit, and such a text merges with whatever stands on the
    other side, unless it is itself the empty current text: "..." after
    "Hello" counts as a revision, whatever the similarity ratio says. *)
Theorem blank_normal_form_merges (ratio : str -> str -> option Q) :
  (forall s, _norm s = [] <-> no_alnum s = true)
  /\ (forall prev curr,
         curr <> [] ->
         no_alnum prev = true \/ no_alnum curr = true ->
         _should_merge ratio prev curr = true).
Proof.
  split; [apply norm_empty_iff|].
  intros prev curr C H. unfold _should_merge.
  destruct (Py.is_empty prev); [reflexivity|].
  rewrite (proj2 (is_empty_false curr) C).
  destruct (Py.startswith curr prev || Py.startswith prev curr);
    [reflexivity|].
  cbv zeta.
  destruct H as [H|H]; apply norm_empty_iff in H; rewrite H;
    cbn [Py.is_empty orb]; [reflexivity|].
  now rewrite orb_true_r.
Qed.

(** "..." after "Hello". *)
Lemma blank_normal_form_merges_witness :
  lit "..." <> []
  /\ no_alnum (lit "...") = true
  /\ _should_merge Difflib.ratio (lit "Hello") (lit "...") = true.
Proof.
  assert (C : lit "..." <> []) by discriminate.
  assert (H : no_alnum (lit "...") = true) by reflexivity.
  split; [exact C|]. split; [exact H|].
  exact (proj2 (blank_normal_form_merges Difflib.ratio) (lit "Hello")
               (lit "...") C (or_intror H)).
Defined.

(** ** Leaving when alone, once the time has come *)

Lemma alone_monitor_runs_out (threshold : Q) (run : list (option Z * Q)) :
  forall since,
    Forall counted_alone run ->
    (exists t, In (Some 1%Z, t) run /\ (threshold <= t - since)%Q) ->
    exists left_at,
      alone_monitor threshold run (Some since) = Some left_at
      /\ (threshold <= left_at - since)%Q.
Proof.
  induction run as [|[count now] run IH]; intros since F (t & I & L);
    [destruct I|].
  inversion F as [|? ? C F']; subst. unfold counted_alone in C.
  simpl in C. subst count. cbn [alone_monitor alone_round].
  destruct (Qgeb (now - since) threshold) eqn:G.
  - exists now. split; [reflexivity | now apply Qgeb_true].
  - apply IH; [exact F'|]. exists t. split; [|exact L].
    destruct I as [E|I]; [|exact I].
    injection E as <-. apply Qgeb_false in G.
    exfalso. apply (Qlt_not_le _ _ G L).
Qed.

(** X24.  When the count is 1 in every round from the first on and some
    round's clock is at least the threshold past the first round's, the
    monitor does leave, no earlier than the threshold after the first
    round. *)
Theorem alone_monitor_leaves
        (threshold since : Q) (run : list (option Z * Q)) :
  Forall counted_alone run ->
  (exists t, In (Some 1%Z, t) run /\ (threshold <= t - since)%Q) ->
  exists left_at,
    alone_monitor threshold ((Some 1%Z, since) :: run) None = Some left_at
    /\ (threshold <= left_at - since)%Q.
Proof.
  intros F H. cbn [alone_monitor alone_round].
  now apply alone_monitor_runs_out.
Qed.

(** Alone at 5, 10 and 50 seconds with the default of 45s. *)
Lemma alone_monitor_leaves_witness :
  Forall counted_alone [(Some 1%Z, 10%Q); (Some 1%Z, 50%Q)]
  /\ (exists t, In (Some 1%Z, t) [(Some 1%Z, 10%Q); (Some 1%Z, 50%Q)]
                /\ (45 <= t - 5)%Q)
  /\ exists left_at,
      alone_monitor 45 [(Some 1%Z, 5%Q); (Some 1%Z, 10%Q); (Some 1%Z, 50%Q)]
                    None
      = Some left_at
      /\ (45 <= left_at - 5)%Q.
Proof.
  assert (F : Forall counted_alone [(Some 1%Z, 10%Q); (Some 1%Z, 50%Q)])
    by (repeat constructor).
  assert (H : exists t, In (Some 1%Z, t) [(Some 1%Z, 10%Q); (Some 1%Z, 50%Q)]
                        /\ (45 <= t - 5)%Q).
  { exists 50%Q. split; [right; now left | vm_compute; discriminate]. }
  split; [exact F|]. split; [exact H|].
  exact (alone_monitor_leaves 45%Q 5%Q _ F H).
Defined.
